(** * maps_us_data: a shallow embedding of the notebook's table pipeline

    The notebook [notebooks/maps_us_data.ipynb] loads a cleaned table of
    COVID-19 counts keyed by (FIPS, Date), collapses every time series
    into one array-valued cell per county, normalises by population,
    slices the latest value and the trailing-week delta out of every
    series and hands the two snapshot tables to a map-drawing routine.

    The notebook is a sequence of pandas / numpy calls.  Each call is
    embedded below by the function it computes on the data (explicit
    error results for the exceptions pandas and numpy raise), and the
    notebook's global variables live in a store of heap objects that the
    cells read and update in place. *)

From Stdlib Require Import ZArith Ascii String List Sorting.Sorted.
From Stdlib Require Import Floats.SpecFloat.
From stdpp Require Import base option list sorting gmap strings pretty.

Local Open Scope string_scope.

(** ** Python exceptions as results *)

Inductive exception : Type :=
| KeyError (key : string)
| IndexError
| ValueError (msg : string)
| TypeError
| AttributeError (attr : string)
| NameError (name : string)
(** the collapser's refusal of a table that is not uniquely keyed *)
| DuplicateKeyError
(** behaviour of the libraries on operand kinds the notebook never
    builds; it is not one of Python's exceptions and no statement below
    counts it as the failure of a cell *)
| OutOfModel.

Inductive result (A : Type) : Type :=
| Ok (a : A)
| Raise (e : exception).
Arguments Ok {A} a.
Arguments Raise {A} e.

#[global] Instance result_ret : MRet result := λ A a, Ok a.
#[global] Instance result_bind : MBind result := λ A B f m,
  match m with
  | Ok a => f a
  | Raise e => Raise e
  end.

Definition lookup_or {A} (e : exception) (o : option A) : result A :=
  match o with
  | Some a => Ok a
  | None => Raise e
  end.

(** [mapM] for results, left to right: the first exception wins. *)
Fixpoint traverse {A B} (f : A → result B) (l : list A) : result (list B) :=
  match l with
  | [] => Ok []
  | x :: l => y ← f x; ys ← traverse f l; Ok (y :: ys)
  end.

(** ** Scalars: numpy dtypes *)

Module F64.
(** IEEE-754 binary64, the dtype [float64]. *)
Definition prec : Z := 53.
Definition emax : Z := 1024.

Definition of_Z (z : Z) : spec_float := binary_normalize prec emax z 0 false.
Definition mul : spec_float → spec_float → spec_float := SFmul prec emax.
Definition div : spec_float → spec_float → spec_float := SFdiv prec emax.
Definition sub : spec_float → spec_float → spec_float := SFsub prec emax.

Definition nan : spec_float := S754_nan.
Definition is_nan (x : spec_float) : bool :=
  match x with
  | S754_nan => true
  | _ => false
  end.
Definition is_zero (x : spec_float) : bool :=
  match x with
  | S754_zero _ => true
  | _ => false
  end.
Definition is_inf (x : spec_float) : bool :=
  match x with
  | S754_infinity _ => true
  | _ => false
  end.

(** the literal [100.0] *)
Definition hundred : spec_float := Eval vm_compute in of_Z 100.
End F64.

Definition wrap (bits : Z) (z : Z) : Z :=
  ((z + 2 ^ (bits - 1)) mod 2 ^ bits - 2 ^ (bits - 1))%Z.

Inductive scalar : Type :=
| Bool (b : bool)
| Int8 (z : Z)
| Int64 (z : Z)
| Float64 (f : spec_float)
| Str (s : string).

#[global] Instance spec_float_eq_dec : EqDecision spec_float.
Proof. solve_decision. Defined.
#[global] Instance scalar_eq_dec : EqDecision scalar.
Proof. solve_decision. Defined.

(** The not-a-number gap value. *)
Definition NaN : scalar := Float64 F64.nan.

(** [pd.isna] on one element. *)
Definition isna (x : scalar) : bool :=
  match x with
  | Float64 f => F64.is_nan f
  | _ => false
  end.

(** Conversion of a numeric element to [float64] (numpy's promotion of
    an operand that meets a float). *)
Definition to_f64 (x : scalar) : result spec_float :=
  match x with
  | Bool b => Ok (F64.of_Z (if b then 1 else 0))
  | Int8 z | Int64 z => Ok (F64.of_Z z)
  | Float64 f => Ok f
  | Str _ => Raise TypeError
  end.

(** The integer an element of a boolean or integer dtype stands for. *)
Definition int_val (x : scalar) : Z :=
  match x with
  | Bool b => if b then 1 else 0
  | Int8 z | Int64 z => z
  | _ => 0
  end.

(** [a - b] on elements: integers wrap around at their width, a float
    operand promotes the other one, numpy refuses [bool - bool] and
    strings. *)
Definition np_subtract (a b : scalar) : result scalar :=
  match a, b with
  | Str _, _ | _, Str _ => Raise TypeError
  | Bool _, Bool _ => Raise TypeError
  | Float64 _, _ | _, Float64 _ =>
      x ← to_f64 a; y ← to_f64 b; Ok (Float64 (F64.sub x y))
  | Int64 _, _ | _, Int64 _ => Ok (Int64 (wrap 64 (int_val a - int_val b)))
  | _, _ => Ok (Int8 (wrap 8 (int_val a - int_val b)))
  end.

(** [c * a] for a Python float [c], as [100.0 * a] in the notebook: an
    [int64] or [float64] element gives a [float64].  (On the narrow
    dtypes [bool] and [int8] the result dtype depends on the numpy
    version; the notebook multiplies the count columns only.) *)
Definition np_multiply_float (c : spec_float) (a : scalar) : result scalar :=
  match a with
  | Int64 z => Ok (Float64 (F64.mul c (F64.of_Z z)))
  | Float64 f => Ok (Float64 (F64.mul c f))
  | Str _ => Raise TypeError
  | Bool _ | Int8 _ => Raise OutOfModel
  end.

(** [a / b] between elements of two arrays: true division, in [float64]. *)
Definition np_true_divide (a b : scalar) : result scalar :=
  x ← to_f64 a; y ← to_f64 b; Ok (Float64 (F64.div x y)).

(** [astype(np.int8)] on one element of a boolean or integer column. *)
Definition astype_int8 (x : scalar) : result scalar :=
  match x with
  | Bool _ | Int8 _ | Int64 _ => Ok (Int8 (wrap 8 (int_val x)))
  | _ => Raise OutOfModel
  end.

(** ** Columns and frames *)

(** A column of a frame is a plain series (one scalar per row) or a
    [TensorArray] wrapping the 2-d array [_tensor] of shape
    [(length rows, ncols)]: one time series per row. *)
Inductive column : Type :=
| Series (values : list scalar)
| TensorArray (ncols : nat) (rows : list (list scalar)).

Definition column_length (c : column) : nat :=
  match c with
  | Series xs => length xs
  | TensorArray _ rows => length rows
  end.

(** The table indexed by (FIPS, Date): [cases_vertical].  Every cell is
    a scalar. *)
Record LongFrame : Type := mkLong {
  long_index : list (Z * Z);
  long_columns : gmap string (list scalar)
}.

(** A table indexed by FIPS: [cases], [latest_cases], [cases_this_week]. *)
Record DataFrame : Type := mkFrame {
  index : list Z;
  columns : gmap string column
}.

(** [df[col]] *)
Definition getitem (df : DataFrame) (col : string) : result column :=
  lookup_or (KeyError col) (columns df !! col).

(** [df[col] = c]: adds or replaces one column; pandas refuses a value
    whose length is not the length of the index. *)
Definition setitem (df : DataFrame) (col : string) (c : column) : result DataFrame :=
  if decide (column_length c = length (index df))
  then Ok (mkFrame (index df) (<[col := c]> (columns df)))
  else Raise (ValueError "Length of values does not match length of index").

(** [df[[c1, ..., cn]]]: a new frame with the listed columns. *)
Definition select (df : DataFrame) (cols : list string) : result DataFrame :=
  cs ← traverse (λ c, x ← getitem df c; Ok (c, x)) cols;
  Ok (mkFrame (index df) (list_to_map cs)).

(** [c.values._tensor[:, -k]] for [k >= 1]: the column of the 2-d array
    counted from the end.  numpy raises [IndexError] when the second
    axis is shorter than [k]; a plain series has no [_tensor]. *)
Definition tensor_from_end (k : nat) (c : column) : result (list scalar) :=
  match c with
  | Series _ => Raise (AttributeError "_tensor")
  | TensorArray ncols rows =>
      if decide (k ≤ ncols)%nat
      then Ok ((λ row, nth (ncols - k) row NaN) <$> rows)
      else Raise IndexError
  end.

(** Element-wise [xs - ys] on two 1-d arrays of one length. *)
Fixpoint subtract_arrays (xs ys : list scalar) : result (list scalar) :=
  match xs, ys with
  | [], [] => Ok []
  | x :: xs, y :: ys => d ← np_subtract x y; ds ← subtract_arrays xs ys; Ok (d :: ds)
  | _, _ => Raise (ValueError "operands could not be broadcast together")
  end.

(** ** Loading: [read_csv(...).set_index(["FIPS", "Date"], verify_integrity=True)] *)

(** What [read_csv] returns: named columns of scalars under the default
    positional index.  A [datetime64] value is carried as the [Int64]
    count of its ticks since the epoch, so that the order of dates is
    the order of these integers. *)
Definition as_key (x : scalar) : result Z :=
  match x with
  | Int8 z | Int64 z => Ok z
  | _ => Raise OutOfModel
  end.

(** The two key columns leave the table and become its index;
    [verify_integrity=True] makes pandas raise a [ValueError] when a key
    occurs twice. *)
Definition set_index_FIPS_Date (raw : gmap string (list scalar)) : result LongFrame :=
  fips ← lookup_or (KeyError "FIPS") (raw !! "FIPS");
  dates ← lookup_or (KeyError "Date") (raw !! "Date");
  fs ← traverse as_key fips;
  ds ← traverse as_key dates;
  if decide (NoDup (zip fs ds))
  then Ok (mkLong (zip fs ds) (delete "Date" (delete "FIPS" raw)))
  else Raise (ValueError "Index has duplicate keys").

(** ** The time-series collapser *)

Definition sorted_distinct (l : list Z) : list Z :=
  merge_sort Z.le (remove_dups l).

(** Position of the first occurrence of [x] in [l]. *)
Definition position `{EqDecision A} (x : A) (l : list A) : option nat :=
  fst <$> list_find (λ y, y = x) l.

(** Named columns, built one by one from a list of names. *)
Definition build_columns {B} (g : string → result B) (names : list string)
    : result (gmap string B) :=
  kvs ← traverse (λ c, y ← g c; Ok (c, y)) names;
  Ok (list_to_map kvs).

Definition collapse_series (keys : list (Z * Z)) (locs dates : list Z)
    (xs : list scalar) : column :=
  TensorArray (length dates)
    ((λ l, (λ d, default NaN (i ← position (l, d) keys; xs !! i)) <$> dates) <$> locs).

Definition carry_first (keys : list (Z * Z)) (locs : list Z)
    (xs : list scalar) : column :=
  Series ((λ l, default NaN (i ← position l (fst <$> keys); xs !! i)) <$> locs).

(** Modelled from the spec: [util.collapse_time_series], whose module
    [util.py] is not part of the sources (the notebook only calls it).
    Following the collapser's contract: the date axis is the sorted set
    of distinct dates; there is one row per distinct location; each
    requested measurement field becomes a sequence over the date axis
    that holds the field's value at (location, date) where such a row
    exists and the not-a-number gap marker elsewhere; every other field
    is carried through by its first observed value for the location; a
    table that is not uniquely keyed is refused with a
    [DuplicateKeyError].  Locations are listed in ascending order (the
    contract allows any stable order). *)
Definition collapse_time_series (lt : LongFrame) (ts_cols : list string)
    : result (DataFrame * list Z) :=
  let keys := long_index lt in
  if decide (NoDup keys) then
    let dates := sorted_distinct (snd <$> keys) in
    let locs := sorted_distinct (fst <$> keys) in
    ts ← build_columns
           (λ c, xs ← lookup_or (KeyError c) (long_columns lt !! c);
                 Ok (collapse_series keys locs dates xs)) ts_cols;
    Ok (mkFrame locs (ts ∪ (carry_first keys locs <$> long_columns lt)), dates)
  else Raise DuplicateKeyError.

(** Modelled from the spec: the re-expansion of the round-trip law, one
    row per (location, date) pair of [keys], reading each requested
    field at the row of the location and the position of the date on the
    date axis.  Positions of the wide table that belong to no pair of
    [keys] (the gap-filled ones) are not visited. *)
Definition wide_cell (wide : DataFrame) (dates : list Z) (col : string)
    (key : Z * Z) : option scalar :=
  r ← position key.1 (index wide);
  j ← position key.2 dates;
  c ← columns wide !! col;
  match c with
  | TensorArray _ rows => row ← rows !! r; row !! j
  | Series _ => None
  end.

Definition expand_time_series (wide : DataFrame) (dates : list Z)
    (keys : list (Z * Z)) (ts_cols : list string) : result LongFrame :=
  cols ← build_columns
           (λ c, traverse (λ key, lookup_or (KeyError c) (wide_cell wide dates c key)) keys)
           ts_cols;
  Ok (mkLong keys cols).

(** ** The derived-metric computer *)

(** [a / p.reshape(-1, 1)] for a 2-d array [a] of shape (n, m) and a 1-d
    array [p] of length n: row [r] of [a] is divided by [p[r]]. *)
Fixpoint divide_rows (rows : list (list scalar)) (pops : list scalar)
    : result (list (list scalar)) :=
  match rows, pops with
  | [], [] => Ok []
  | row :: rows, p :: pops =>
      q ← traverse (λ x, np_true_divide x p) row;
      qs ← divide_rows rows pops;
      Ok (q :: qs)
  | _, _ => Raise (ValueError "operands could not be broadcast together")
  end.

(** [100.0 * df[col].values / df["Population"].values.reshape(-1,1)].
    Dividing by zero is no exception in numpy: the quotient is the
    IEEE-754 one. *)
Definition per_100 (df : DataFrame) (col : string) : result column :=
  c ← getitem df col;
  match c with
  | TensorArray m rows =>
      scaled ← traverse (traverse (np_multiply_float F64.hundred)) rows;
      p ← getitem df "Population";
      match p with
      | Series pops => q ← divide_rows scaled pops; Ok (TensorArray m q)
      | TensorArray _ _ => Raise (AttributeError "reshape")
      end
  | Series _ => Raise OutOfModel
  end.

(** [t[:, -1]] *)
Definition last_value (c : column) : result column :=
  a ← tensor_from_end 1 c; Ok (Series a).

(** [t[:, -1] - t[:, -8]] *)
Definition week_delta (c : column) : result column :=
  a ← tensor_from_end 1 c;
  b ← tensor_from_end 8 c;
  d ← subtract_arrays a b;
  Ok (Series d).

(** ** The notebook's variables *)

(** Python objects the notebook's global names are bound to.  A name
    holds a reference: two names bound to one object would see each
    other's in-place updates. *)
Inductive object : Type :=
| LongObj (df : LongFrame)
| FrameObj (df : DataFrame)
| DatesObj (dates : list Z)
(** the county outlines [json.load] returns, by the [id]s of the
    features of the collection *)
| GeoJson (feature_ids : list string).

Record store : Type := mkStore {
  heap : list object;
  globals : gmap string nat
}.

Definition empty_store : store := mkStore [] ∅.

(** A cell: a computation on the store that returns or raises. *)
Definition Cell (A : Type) : Type := store → result (A * store).

#[global] Instance cell_ret : MRet Cell := λ A a s, Ok (a, s).
#[global] Instance cell_bind : MBind Cell := λ A B f m s,
  match m s with
  | Ok (a, s') => f a s'
  | Raise e => Raise e
  end.

Definition lift {A} (r : result A) : Cell A := λ s,
  match r with
  | Ok a => Ok (a, s)
  | Raise e => Raise e
  end.

(** a new object; its reference is returned *)
Definition new (o : object) : Cell nat := λ s,
  Ok (length (heap s), mkStore (heap s ++ [o]) (globals s)).

(** [name = <reference>] *)
Definition assign (name : string) (l : nat) : Cell unit := λ s,
  Ok (tt, mkStore (heap s) (<[name := l]> (globals s))).

(** evaluation of a global name *)
Definition var (name : string) : Cell nat := λ s,
  match globals s !! name with
  | Some l => Ok (l, s)
  | None => Raise (NameError name)
  end.

Definition deref (l : nat) : Cell object := λ s,
  match heap s !! l with
  | Some o => Ok (o, s)
  | None => Raise OutOfModel
  end.

(** in-place update of the object behind a reference *)
Definition update (l : nat) (o : object) : Cell unit := λ s,
  Ok (tt, mkStore (<[l := o]> (heap s)) (globals s)).

Definition frame_at (l : nat) : Cell DataFrame :=
  o ← deref l;
  match o with
  | FrameObj df => mret df
  | _ => lift (Raise OutOfModel)
  end.

Definition long_at (l : nat) : Cell LongFrame :=
  o ← deref l;
  match o with
  | LongObj df => mret df
  | _ => lift (Raise OutOfModel)
  end.

(** [for x in xs: body] *)
Fixpoint for_each {A} (xs : list A) (body : A → Cell unit) : Cell unit :=
  match xs with
  | [] => mret tt
  | x :: xs => body x;; for_each xs body
  end.

(** [name[col] = c] on a frame, in place. *)
Definition setitem_var (name col : string) (c : column) : Cell unit :=
  l ← var name;
  df ← frame_at l;
  df' ← lift (setitem df col c);
  update l (FrameObj df').

(** [name[[cols]].copy()]: the selection is a new frame and so is its
    copy. *)
Definition select_copy (name : string) (cols : list string) : Cell nat :=
  l ← var name;
  df ← frame_at l;
  sel ← lift (select df cols);
  tmp ← new (FrameObj sel);
  cp ← frame_at tmp;
  new (FrameObj cp).

(** ** The cells, in the notebook's order *)

Definition outlier_columns : list string :=
  ["Confirmed_Outlier"; "Deaths_Outlier"; "Recovered_Outlier"].

Definition ts_columns : list string :=
  ["Confirmed"; "Deaths"; "Recovered";
   "Confirmed_Outlier"; "Deaths_Outlier"; "Recovered_Outlier"].

Definition static_columns : list string := ["State"; "County"; "Population"].

Definition metric_columns : list string :=
  ["Confirmed"; "Confirmed_per_100"; "Deaths"; "Deaths_per_100"].

(** [cases_vertical = pd.read_csv(...).set_index(["FIPS", "Date"],
    verify_integrity=True)], on the table [raw] read from the file. *)
Definition cell_load (raw : gmap string (list scalar)) : Cell unit :=
  lt ← lift (set_index_FIPS_Date raw);
  l ← new (LongObj lt);
  assign "cases_vertical" l.

(** [for col in [...]: cases_vertical[col] = cases_vertical[col].astype(np.int8)] *)
Definition cell_cast_outliers : Cell unit :=
  for_each outlier_columns (λ col,
    l ← var "cases_vertical";
    lt ← long_at l;
    xs ← lift (lookup_or (KeyError col) (long_columns lt !! col));
    ys ← lift (traverse astype_int8 xs);
    l' ← var "cases_vertical";
    lt' ← long_at l';
    update l' (LongObj (mkLong (long_index lt') (<[col := ys]> (long_columns lt'))))).

(** [cases, dates = util.collapse_time_series(cases_vertical, [...])] *)
Definition cell_collapse : Cell unit :=
  l ← var "cases_vertical";
  lt ← long_at l;
  '(wide, dates) ← lift (collapse_time_series lt ts_columns);
  lw ← new (FrameObj wide);
  ld ← new (DatesObj dates);
  assign "cases" lw;;
  assign "dates" ld.

(** [cases[target] = 100.0 * cases[source].values
                     / cases["Population"].values.reshape(-1,1)] *)
Definition assign_per_100 (target source : string) : Cell unit :=
  l ← var "cases";
  df ← frame_at l;
  c ← lift (per_100 df source);
  setitem_var "cases" target c.

Definition cell_per_capita : Cell unit :=
  assign_per_100 "Confirmed_per_100" "Confirmed";;
  assign_per_100 "Deaths_per_100" "Deaths".

(** The two slicing cells differ in the target name and in the slice:
    [name = cases[["State", "County", "Population"]].copy()], then
    [for col in [...]: name[col] = slice(cases[col])]. *)
Definition derive_snapshot (name : string) (slice : column → result column)
    : Cell unit :=
  l ← select_copy "cases" static_columns;
  assign name l;;
  for_each metric_columns (λ col,
    lc ← var "cases";
    df ← frame_at lc;
    c ← lift (getitem df col);
    v ← lift (slice c);
    setitem_var name col v).

Definition cell_latest_cases : Cell unit :=
  derive_snapshot "latest_cases" last_value.

Definition cell_cases_this_week : Cell unit :=
  derive_snapshot "cases_this_week" week_delta.

(** The cells that build the tables. *)
Inductive cell : Type :=
| Load (raw : gmap string (list scalar))
| CastOutliers
| Collapse
| PerCapita
| LatestCases
| CasesThisWeek.

Definition run (c : cell) : Cell unit :=
  match c with
  | Load raw => cell_load raw
  | CastOutliers => cell_cast_outliers
  | Collapse => cell_collapse
  | PerCapita => cell_per_capita
  | LatestCases => cell_latest_cases
  | CasesThisWeek => cell_cases_this_week
  end.

(** The notebook up to the drawing cells, run top to bottom. *)
Definition notebook (raw : gmap string (list scalar)) : Cell unit :=
  for_each [Load raw; CastOutliers; Collapse; PerCapita; LatestCases; CasesThisWeek] run.

(** ** Drawing *)

(** [numpy.compress]: the elements of [l] at the positions where the
    mask holds, as boolean indexing [df[mask]] keeps rows. *)
(** The cell that downloads the county outlines:
    [counties = json.load(response)]; [ids] stands for the downloaded
    collection. *)
Definition cell_download (ids : list string) : Cell unit :=
  l ← new (GeoJson ids);
  assign "counties" l.

(** Reading the global name [counties] in a store. *)
Definition counties_global (s : store) : result (list string) :=
  match globals s !! "counties" with
  | None => Raise (NameError "counties")
  | Some l =>
      match heap s !! l with
      | Some (GeoJson ids) => Ok ids
      | _ => Raise OutOfModel
      end
  end.

(** The read of [counties] where a drawing cell calls [draw_map]: what
    the read gives is handed to the body, which raises its exception,
    if any, at the place of the read. *)
Definition read_counties : Cell (result (list string)) := λ s,
  Ok (counties_global s, s).

Fixpoint compress {A} (mask : list bool) (l : list A) : list A :=
  match mask, l with
  | b :: mask, x :: l => if b then x :: compress mask l else compress mask l
  | _, _ => []
  end.

Definition compress_column (mask : list bool) (c : column) : column :=
  match c with
  | Series xs => Series (compress mask xs)
  | TensorArray m rows => TensorArray m (compress mask rows)
  end.

(** [df[mask]] *)
Definition boolean_index (df : DataFrame) (mask : list bool) : DataFrame :=
  mkFrame (compress mask (index df)) (compress_column mask <$> columns df).

(** ["{:05d}".format(f)]: decimal digits, zero-padded to five characters
    with the sign, if any, in front. *)
Definition format_05d (f : Z) : string :=
  let digits := pretty (Z.abs_N f) in
  let sign := if decide (f < 0)%Z then "-" else "" in
  let pad := (5 - String.length sign - String.length digits)%nat in
  sign +:+ String.concat "" (replicate pad "0") +:+ digits.

(** The arguments [draw_map] passes to [px.choropleth]. *)
Record choropleth : Type := mkChoropleth {
  data_frame : DataFrame;
  geojson : list string;
  locations : list string;
  color : string;
  range_color : scalar * scalar;
  hover_name : column;
  labels : string * string;
  title : string
}.

(** [~pd.isna(x)] on one element. *)
Definition notna_b (x : scalar) : bool := negb (isna x).

Section Drawing.
(** [Series.quantile(q)] of pandas, on the values of a series. *)
Variable quantile : list scalar → spec_float → scalar.

(** the literal [0.95] *)
Definition q95 : spec_float :=
  Eval vm_compute in F64.div (F64.of_Z 95) (F64.of_Z 100).

(** The values [Series.quantile] interpolates between are numbers: it
    raises [TypeError] on a column of strings.  The [quantile] above is
    the interpolation itself, on an integer or float column. *)
Definition quantile_operand (x : scalar) : result scalar :=
  match x with
  | Int8 _ | Int64 _ | Float64 _ => Ok x
  | Str _ => Raise TypeError
  | Bool _ => Raise OutOfModel
  end.

Definition series_quantile (c : column) (q : spec_float) : result scalar :=
  match c with
  | Series xs => _ ← traverse quantile_operand xs; Ok (quantile xs q)
  | TensorArray _ _ => Raise OutOfModel
  end.

(** [~c.isna()] *)
Definition notna_mask (c : column) : result (list bool) :=
  match c with
  | Series xs => Ok (notna_b <$> xs)
  | TensorArray _ _ => Raise OutOfModel
  end.

(** [draw_map(df, col_name, label_str)] up to the call of
    [px.choropleth]; showing the figure is outside the embedding.  The
    body reads the global name [counties]: [counties] is what this read
    gives where the function is called, the outlines or the exception of
    the read.  The arguments of [px.choropleth] are evaluated in the
    order they are written: [geojson], [locations], [range_color],
    [hover_name]. *)
Definition draw_map (counties : result (list string)) (df : DataFrame)
    (col_name label_str : string) : result choropleth :=
  c ← getitem df col_name;
  mask ← notna_mask c;
  let valid_data := boolean_index df mask in
  geo ← counties;
  let locs := format_05d <$> index valid_data in
  vc ← getitem valid_data col_name;
  top ← series_quantile vc q95;
  county ← getitem valid_data "County";
  Ok (mkChoropleth valid_data geo locs col_name (Int64 0, top) county
        (col_name, label_str) label_str).
End Drawing.

(** ** Well-formed tables *)

Definition numeric (x : scalar) : Prop :=
  match x with
  | Int64 _ | Float64 _ => True
  | _ => False
  end.

(** A wide table over a date axis of length [m]: the carried-over
    columns are series, the sliced columns hold one sequence of length
    [m] per row. *)
Record wide_ok (m : nat) (df : DataFrame) : Prop := mkWideOk {
  static_ok : ∀ c, c ∈ static_columns →
    ∃ xs, columns df !! c = Some (Series xs) ∧ length xs = length (index df);
  metric_ok : ∀ c, c ∈ metric_columns →
    ∃ rows, columns df !! c = Some (TensorArray m rows) ∧
            length rows = length (index df) ∧
            Forall (λ row, length row = m) rows
}.

(** Elements numpy converts to a float: everything but a string. *)
Definition number (x : scalar) : Prop :=
  match x with
  | Str _ => False
  | _ => True
  end.

(** Element [i] of row [r] of a 2-d array. *)
Definition element (rows : list (list scalar)) (r i : nat) : option scalar :=
  row ← rows !! r; row !! i.

(** The elements of a column [Series.quantile] accepts. *)
Definition real_valued (x : scalar) : Prop :=
  match x with
  | Int8 _ | Int64 _ | Float64 _ => True
  | _ => False
  end.

(** The counts of the sliced columns are integers or floats. *)
Definition counts_numeric (df : DataFrame) : Prop :=
  ∀ c m rows, c ∈ metric_columns → columns df !! c = Some (TensorArray m rows) →
    Forall (Forall numeric) rows.

(** The store holds the collapser's pair under [cases] and [dates]. *)
Definition holds_wide (s : store) (wide : DataFrame) (dates : list Z) : Prop :=
  ∃ lc ld, globals s !! "cases" = Some lc ∧ heap s !! lc = Some (FrameObj wide) ∧
           globals s !! "dates" = Some ld ∧ heap s !! ld = Some (DatesObj dates).

(** The frame a global name is bound to. *)
Definition frame_of (s : store) (name : string) : option DataFrame :=
  l ← globals s !! name;
  o ← heap s !! l;
  match o with
  | FrameObj df => Some df
  | _ => None
  end.

Definition long_of (s : store) (name : string) : option LongFrame :=
  l ← globals s !! name;
  o ← heap s !! l;
  match o with
  | LongObj df => Some df
  | _ => None
  end.

(** ** Concrete tables *)

(** One county, ten consecutive days (2021-01-01 is day 18628 of the
    epoch), the confirmed counts of the end-to-end example and a
    constant population of 1000. *)
Definition example_days : list Z :=
  [18628; 18629; 18630; 18631; 18632; 18633; 18634; 18635; 18636; 18637]%Z.

Definition example_raw : gmap string (list scalar) :=
  list_to_map
    [("FIPS", replicate 10 (Int64 1001));
     ("Date", Int64 <$> example_days);
     ("State", replicate 10 (Str "Alabama"));
     ("County", replicate 10 (Str "Autauga"));
     ("Population", replicate 10 (Int64 1000));
     ("Confirmed", Int64 <$> [10; 12; 15; 15; 20; 22; 25; 30; 33; 40]%Z);
     ("Deaths", Int64 <$> [0; 0; 0; 0; 1; 1; 1; 2; 2; 2]%Z);
     ("Recovered", replicate 10 (Int64 0));
     ("Confirmed_Outlier", replicate 10 (Bool false));
     ("Deaths_Outlier", replicate 10 (Bool false));
     ("Recovered_Outlier", replicate 10 (Bool false))].

(** The same table cut to its first [n] days. *)
Definition example_prefix (n : nat) : gmap string (list scalar) :=
  take n <$> example_raw.

(** The store a list of cells leaves behind, from the empty one. *)
Definition store_after (cells : list cell) : store :=
  match for_each cells run empty_store with
  | Ok (_, s) => s
  | Raise _ => empty_store
  end.

Definition wide_after (cells : list cell) : DataFrame :=
  default (mkFrame [] ∅) (frame_of (store_after cells) "cases").

(** The example up to the per-capita cell, with ten and with five days. *)
Definition example_cells : list cell :=
  [Load example_raw; CastOutliers; Collapse; PerCapita].

Definition short_cells : list cell :=
  [Load (example_prefix 5); CastOutliers; Collapse; PerCapita].

(** One county whose population is recorded as zero. *)
Definition zero_population_frame : DataFrame :=
  mkFrame [1001%Z]
    (list_to_map
       [("Population", Series [Int64 0]);
        ("Confirmed", TensorArray 3 [[Int64 5; Int64 0; Float64 F64.nan]])]).

(** A file in which the first day of the county occurs twice. *)
Definition duplicate_raw : gmap string (list scalar) :=
  (λ xs, app (take 1 xs) xs) <$> example_raw.

(** A snapshot table with a gap in its [Confirmed] column. *)
Definition snapshot_with_gap : DataFrame :=
  mkFrame [1001; 1003; 56045]%Z
    (list_to_map
       [("County", Series [Str "Autauga"; Str "Baldwin"; Str "Weston"]);
        ("Confirmed", Series [Float64 (F64.of_Z 40); NaN; Float64 (F64.of_Z 7)])]).


(** The [id]s of three features of the county outlines. *)
Definition example_outlines : list string := ["01001"; "01003"; "56045"].

(** The column of a frame a global name is bound to. *)
Definition column_of (s : store) (name col : string) : option column :=
  df ← frame_of s name; columns df !! col.

(** ** What a cell may change *)

(** Every object of [s] is still there, unchanged, in [s']. *)
Definition objects_kept (s s' : store) : Prop :=
  ∀ l o, heap s !! l = Some o → heap s' !! l = Some o.

(** [s'] is [s] but for the frame behind [name], which keeps its index
    and every column outside [cols]. *)
Definition frame_columns_set (name : string) (cols : list string) (s s' : store) : Prop :=
  globals s' = globals s ∧
  ∃ l df df', globals s !! name = Some l ∧ heap s !! l = Some (FrameObj df) ∧
    heap s' = <[l := FrameObj df']> (heap s) ∧ index df' = index df ∧
    ∀ col, col ∉ cols → columns df' !! col = columns df !! col.

Definition long_columns_set (name : string) (cols : list string) (s s' : store) : Prop :=
  globals s' = globals s ∧
  ∃ l lt lt', globals s !! name = Some l ∧ heap s !! l = Some (LongObj lt) ∧
    heap s' = <[l := LongObj lt']> (heap s) ∧ long_index lt' = long_index lt ∧
    ∀ col, col ∉ cols → long_columns lt' !! col = long_columns lt !! col.

Definition frame_effect (c : cell) (s s' : store) : Prop :=
  match c with
  | Load _ | Collapse | LatestCases | CasesThisWeek => objects_kept s s'
  | PerCapita =>
      frame_columns_set "cases" ["Confirmed_per_100"; "Deaths_per_100"] s s'
  | CastOutliers => long_columns_set "cases_vertical" outlier_columns s s'
  end.

(** Two counties over two days, listed out of order; the second county
    has no row for the first day. *)
Definition gappy_long : LongFrame :=
  mkLong [(1003, 18629); (1001, 18629); (1001, 18628)]%Z
    (list_to_map
       [("Confirmed", [Int64 7; Int64 6; Int64 5]);
        ("Population", [Int64 200; Int64 1000; Int64 1000])]).

(** An element that is not a gap. *)
Definition notna (x : scalar) : Prop := isna x = false.

#[global] Instance notna_dec x : Decision (notna x).
Proof. unfold notna. apply _. Defined.

(** ** The slicing cells, read as a function of the wide table *)

(** The loop [for col in cols: snap[col] = slice(wide[col])]. *)
Fixpoint fill (slice : column → result column) (wide : DataFrame)
    (cols : list string) (snap : DataFrame) : result DataFrame :=
  match cols with
  | [] => Ok snap
  | col :: cols =>
      c ← getitem wide col;
      v ← slice c;
      snap' ← setitem snap col v;
      fill slice wide cols snap'
  end.

(** ** Further readings of the cells *)

(** One round of the casting loop:
    [cases_vertical[col] = cases_vertical[col].astype(np.int8)]. *)
Definition cast_step (col : string) : Cell unit :=
  l ← var "cases_vertical";
  lt ← long_at l;
  xs ← lift (lookup_or (KeyError col) (long_columns lt !! col));
  ys ← lift (traverse astype_int8 xs);
  l' ← var "cases_vertical";
  lt' ← long_at l';
  update l' (LongObj (mkLong (long_index lt') (<[col := ys]> (long_columns lt')))).

(** Elements of a boolean or integer dtype. *)
Definition integral (x : scalar) : Prop :=
  match x with
  | Bool _ | Int8 _ | Int64 _ => True
  | _ => False
  end.

(** The [int8] an element is cast to. *)
Definition as_int8 (x : scalar) : scalar := Int8 (wrap 8 (int_val x)).

(** A frame all of whose columns have one entry per index label. *)
Definition frame_ok (df : DataFrame) : Prop :=
  ∀ col c, columns df !! col = Some c → column_length c = length (index df).

(** The name a slicing cell binds and the slice it takes. *)
Definition snapshot_cell (c : cell) : option (string * (column → result column)) :=
  match c with
  | LatestCases => Some ("latest_cases", last_value)
  | CasesThisWeek => Some ("cases_this_week", week_delta)
  | _ => None
  end.

(** The drawing cells: [draw_map(name, col_name, label_str)] on the
    table a global name is bound to. *)
Definition cell_draw (quantile : list scalar → spec_float → scalar)
    (name col_name label_str : string) : Cell choropleth :=
  l ← var name;
  df ← frame_at l;
  counties ← read_counties;
  lift (draw_map quantile counties df col_name label_str).

(** The example's store once the outlines are downloaded as well. *)
Definition drawing_store (cells : list cell) : store :=
  match cell_download example_outlines (store_after cells) with
  | Ok (_, s) => s
  | Raise _ => empty_store
  end.

(** The number a string of decimal digits denotes, as the five-digit
    identifiers of the map's counties are read. *)
Definition digit_value (c : ascii) : N := (N_of_ascii c - 48)%N.

Fixpoint read_decimal (acc : N) (s : string) : N :=
  match s with
  | EmptyString => acc
  | String c s => read_decimal (10 * acc + digit_value c) s
  end.

(** ** Locating the input files *)

(** [os.getenv(key, default)]: the value of the variable where it is
    set, be it the empty string, the default elsewhere. *)
Definition getenv (environ : gmap string string) (key default : string) : string :=
  match environ !! key with
  | Some v => v
  | None => default
  end.

Definition starts_with_sep (s : string) : bool :=
  match s with
  | String c _ => bool_decide (c = "/"%char)
  | EmptyString => false
  end.

Fixpoint ends_with_sep (s : string) : bool :=
  match s with
  | EmptyString => false
  | String c EmptyString => bool_decide (c = "/"%char)
  | String _ s => ends_with_sep s
  end.

(** [os.path.join(a, b)] of [posixpath]: an absolute [b] replaces [a];
    otherwise [b] is appended, after a separator unless [a] is empty or
    ends with one. *)
Definition path_join (a b : string) : string :=
  if starts_with_sep b then b
  else if bool_decide (a = "") || ends_with_sep a then a +:+ b
  else a +:+ "/" +:+ b.

(** [_OUTPUTS_DIR], [csv_file] and [meta_file]. *)
Definition outputs_dir (environ : gmap string string) : string :=
  getenv environ "COVID_OUTPUTS_DIR" "outputs".

Definition csv_file (environ : gmap string string) : string :=
  path_join (outputs_dir environ) "us_counties_clean.csv".

Definition meta_file (environ : gmap string string) : string :=
  path_join (outputs_dir environ) "us_counties_clean_meta.json".

(** * Running cells *)

Lemma bind_Ok {A B} (a : A) (f : A → result B) : (Ok a ≫= f) = f a.
Proof. reflexivity. Qed.

Lemma bind_Raise {A B} e (f : A → result B) : (Raise e ≫= f) = Raise e.
Proof. reflexivity. Qed.

Section Running.
Context {A B : Type}.
Implicit Types (f : A → Cell B) (s : store).

Lemma run_bind (m : Cell A) f s :
  (m ≫= f) s = match m s with Ok (a, s') => f a s' | Raise e => Raise e end.
Proof. reflexivity. Qed.

Lemma run_lift (r : result A) f s :
  (lift r ≫= f) s = match r with Ok a => f a s | Raise e => Raise e end.
Proof. by destruct r. Qed.

Lemma run_ret (a : A) f s : (mret a ≫= f) s = f a s.
Proof. reflexivity. Qed.
End Running.

Section RunningStore.
Context {B : Type}.
Implicit Types (s : store).

Lemma run_var x l (f : nat → Cell B) s :
  globals s !! x = Some l → (var x ≫= f) s = f l s.
Proof. intros H. rewrite run_bind. unfold var. by rewrite H. Qed.

Lemma run_frame_at l df (f : DataFrame → Cell B) s :
  heap s !! l = Some (FrameObj df) → (frame_at l ≫= f) s = f df s.
Proof.
  intros H. rewrite run_bind. unfold frame_at. rewrite run_bind.
  unfold deref. by rewrite H.
Qed.

Lemma run_long_at l lt (f : LongFrame → Cell B) s :
  heap s !! l = Some (LongObj lt) → (long_at l ≫= f) s = f lt s.
Proof.
  intros H. rewrite run_bind. unfold long_at. rewrite run_bind.
  unfold deref. by rewrite H.
Qed.

Lemma run_new o (f : nat → Cell B) s :
  (new o ≫= f) s = f (length (heap s)) (mkStore (heap s ++ [o]) (globals s)).
Proof. reflexivity. Qed.

Lemma run_assign x l (f : unit → Cell B) s :
  (assign x l ≫= f) s = f tt (mkStore (heap s) (<[x := l]> (globals s))).
Proof. reflexivity. Qed.

Lemma run_update l o (f : unit → Cell B) s :
  (update l o ≫= f) s = f tt (mkStore (<[l := o]> (heap s)) (globals s)).
Proof. reflexivity. Qed.
End RunningStore.

Lemma run_assoc {A B C} (m : Cell A) (f : A → Cell B) (g : B → Cell C) s :
  ((m ≫= f) ≫= g) s = (m ≫= λ a, f a ≫= g) s.
Proof. rewrite !run_bind. by destruct (m s) as [[a s']|e]. Qed.

Lemma store_eta s : mkStore (heap s) (globals s) = s.
Proof. by destruct s. Qed.

Lemma run_setitem_var name col v ln snap s :
  globals s !! name = Some ln → heap s !! ln = Some (FrameObj snap) →
  setitem_var name col v s =
    match setitem snap col v with
    | Ok snap' => Ok (tt, mkStore (<[ln := FrameObj snap']> (heap s)) (globals s))
    | Raise e => Raise e
    end.
Proof.
  intros Hn Hl. unfold setitem_var.
  rewrite (run_var _ _ _ _ Hn), (run_frame_at _ _ _ _ Hl), run_lift.
  by destruct (setitem snap col v).
Qed.

Lemma fill_loop slice name wide cols : ∀ s lc ln snap,
  globals s !! "cases" = Some lc → globals s !! name = Some ln → lc ≠ ln →
  heap s !! lc = Some (FrameObj wide) → heap s !! ln = Some (FrameObj snap) →
  for_each cols (λ col,
    lc ← var "cases";
    df ← frame_at lc;
    c ← lift (getitem df col);
    v ← lift (slice c);
    setitem_var name col v) s
  = match fill slice wide cols snap with
    | Ok snap' => Ok (tt, mkStore (<[ln := FrameObj snap']> (heap s)) (globals s))
    | Raise e => Raise e
    end.
Proof.
  induction cols as [|col cols IH]; intros s lc ln snap Hc Hn Hne Hlc Hln.
  - simpl. rewrite list_insert_id by done. by rewrite store_eta.
  - simpl for_each. rewrite run_bind.
    rewrite (run_var _ _ _ _ Hc), (run_frame_at _ _ _ _ Hlc), run_lift.
    simpl fill.
    destruct (getitem wide col) as [c|e]; simpl; [|done].
    rewrite run_lift.
    destruct (slice c) as [v|e]; simpl; [|done].
    rewrite (run_setitem_var _ _ _ _ _ _ Hn Hln).
    destruct (setitem snap col v) as [snap'|e]; simpl; [|done].
    rewrite (IH _ lc ln snap'); simpl; try done.
    + destruct (fill slice wide cols snap'); [|done].
      by rewrite list_insert_insert_eq.
    + by rewrite list_lookup_insert_ne.
    + apply list_lookup_insert_eq. by eapply lookup_lt_Some.
Qed.

(** What a slicing cell does to the store. *)
Lemma derive_snapshot_run name slice s lc wide :
  name ≠ "cases" →
  globals s !! "cases" = Some lc → heap s !! lc = Some (FrameObj wide) →
  derive_snapshot name slice s =
    sel ← select wide static_columns;
    snap ← fill slice wide metric_columns sel;
    Ok (tt, mkStore (heap s ++ [FrameObj sel; FrameObj snap])
                    (<[name := S (length (heap s))]> (globals s))).
Proof.
  intros Hname Hc Hlc. unfold derive_snapshot, select_copy.
  generalize metric_columns; intros cols.
  rewrite !run_assoc, (run_var _ _ _ _ Hc), !run_assoc.
  rewrite (run_frame_at _ _ _ _ Hlc), !run_assoc, run_lift.
  destruct (select wide static_columns) as [sel|e]; simpl; [|done].
  rewrite !run_assoc, run_new, !run_assoc.
  erewrite run_frame_at by (simpl; apply list_lookup_middle; done).
  rewrite run_new, run_assign. cbn [heap globals].
  rewrite length_app, Nat.add_1_r. cbn [length].
  rewrite (fill_loop slice name wide cols _ lc (S (length (heap s))) sel);
    cbn [heap globals].
  - destruct (fill slice wide cols sel) as [snap|e]; simpl; [|done].
    do 3 f_equal. rewrite <- (assoc_L (++)). simpl.
    rewrite insert_app_r_alt by lia.
    by replace (S (length (heap s)) - length (heap s)) with 1 by lia.
  - by rewrite lookup_insert_ne.
  - by rewrite lookup_insert_eq.
  - apply lookup_lt_Some in Hlc. lia.
  - rewrite <- (assoc_L (++)). by rewrite lookup_app_l by (by eapply lookup_lt_Some).
  - rewrite lookup_app_r; rewrite length_app, Nat.add_1_r; [|lia].
    by rewrite Nat.sub_diag.
Qed.

(** * Slices of a tensor column *)

Lemma traverse_length {A B} (f : A → result B) l ys :
  traverse f l = Ok ys → length ys = length l.
Proof.
  revert ys. induction l as [|x l IH]; intros ys; simpl.
  - by intros [= <-].
  - destruct (f x) as [y|]; simpl; [|done].
    destruct (traverse f l) as [zs|]; simpl; [|done].
    intros [= <-]. simpl. f_equal. by apply IH.
Qed.

Lemma traverse_lookup {A B} (f : A → result B) l ys i x :
  traverse f l = Ok ys → l !! i = Some x → ∃ y, f x = Ok y ∧ ys !! i = Some y.
Proof.
  revert ys i. induction l as [|x' l IH]; intros ys i; simpl; [done|].
  destruct (f x') as [y|] eqn:Hy; simpl; [|done].
  destruct (traverse f l) as [zs|]; simpl; [|done].
  intros [= <-]. destruct i as [|i]; simpl.
  - intros [= ->]. eauto.
  - intros Hi. by apply IH.
Qed.

Lemma traverse_total {A B} (f : A → result B) l :
  (∀ x, x ∈ l → ∃ y, f x = Ok y) → ∃ ys, traverse f l = Ok ys.
Proof.
  induction l as [|x l IH]; intros Hf; simpl; [eauto|].
  destruct (Hf x) as [y ->]; [left|]. simpl.
  destruct IH as [ys ->]; [|simpl; eauto].
  intros z Hz. apply Hf. by right.
Qed.

Lemma tensor_from_end_ok k m rows :
  (k ≤ m)%nat →
  tensor_from_end k (TensorArray m rows) = Ok ((λ row, nth (m - k) row NaN) <$> rows).
Proof. intros Hk. unfold tensor_from_end. by rewrite decide_True. Qed.

Lemma tensor_from_end_short k m rows :
  (m < k)%nat → tensor_from_end k (TensorArray m rows) = Raise IndexError.
Proof. intros Hk. unfold tensor_from_end. rewrite decide_False; [done|lia]. Qed.

(** Reading the slice at a row of the right length. *)
Lemma from_end_lookup (j : nat) (rows : list (list scalar)) r row a :
  rows !! r = Some row → row !! j = Some a →
  ((λ row, nth j row NaN) <$> rows) !! r = Some a.
Proof.
  intros Hr Ha. rewrite list_lookup_fmap, Hr. simpl. f_equal.
  by apply nth_lookup_Some with (d := NaN) in Ha.
Qed.

Lemma np_subtract_numeric a b :
  numeric a → numeric b → ∃ v, np_subtract a b = Ok v ∧ numeric v.
Proof. destruct a, b; simpl; intros [] []; eexists; (split; [reflexivity|exact I]). Qed.

Lemma np_subtract_int64 x y :
  np_subtract (Int64 x) (Int64 y) = Ok (Int64 (wrap 64 (x - y))).
Proof. reflexivity. Qed.

Lemma np_subtract_float64 x y :
  np_subtract (Float64 x) (Float64 y) = Ok (Float64 (F64.sub x y)).
Proof. reflexivity. Qed.

(** Within the range of the width nothing wraps. *)
Lemma wrap_in_range bits z :
  (0 < bits)%Z → (- 2 ^ (bits - 1) ≤ z < 2 ^ (bits - 1))%Z → wrap bits z = z.
Proof.
  intros Hb Hz. unfold wrap.
  assert (2 ^ bits = 2 * 2 ^ (bits - 1))%Z as ->.
  { rewrite <- Z.pow_succ_r by lia. f_equal. lia. }
  rewrite Z.mod_small; lia.
Qed.

(** The value of a difference of two counts. *)
Lemma np_subtract_value a b v :
  np_subtract a b = Ok v →
  (∀ x y, a = Int64 x → b = Int64 y →
     v = Int64 ((x - y + 2 ^ 63) mod 2 ^ 64 - 2 ^ 63)%Z ∧
     ((- 2 ^ 63 ≤ x - y < 2 ^ 63)%Z → v = Int64 (x - y))) ∧
  (∀ x y, a = Float64 x → b = Float64 y → v = Float64 (SFsub 53 1024 x y)) ∧
  (∀ x y, a = Int64 x → b = Float64 y →
     v = Float64 (SFsub 53 1024 (F64.of_Z x) y)) ∧
  (∀ x y, a = Float64 x → b = Int64 y →
     v = Float64 (SFsub 53 1024 x (F64.of_Z y))).
Proof.
  intros Hv. split; [|split; [|split]]; intros x y -> ->; simpl in Hv;
    injection Hv as <-; try reflexivity.
  split; [reflexivity|]. intros Hxy. f_equal. by apply wrap_in_range.
Qed.

Lemma subtract_arrays_spec xs : ∀ ys,
  length xs = length ys → Forall numeric xs → Forall numeric ys →
  ∃ ds, subtract_arrays xs ys = Ok ds ∧ length ds = length xs ∧
        ∀ i a b, xs !! i = Some a → ys !! i = Some b →
                 ∃ v, np_subtract a b = Ok v ∧ ds !! i = Some v.
Proof.
  induction xs as [|x xs IH]; intros [|y ys] Hlen Hxs Hys; simplify_eq/=.
  - exists []. by repeat split.
  - apply Forall_cons in Hxs as [Hx Hxs]. apply Forall_cons in Hys as [Hy Hys].
    destruct (np_subtract_numeric x y Hx Hy) as (v & Hv & _).
    destruct (IH ys Hlen Hxs Hys) as (ds & Hds & Hl & Hi).
    exists (v :: ds). rewrite Hv, Hds. simpl. repeat split; [by f_equal|].
    intros [|i] a b; simpl.
    + intros [= <-] [= <-]. eauto.
    + apply Hi.
Qed.

Lemma last_value_spec m rows :
  (1 ≤ m)%nat →
  ∃ vs, last_value (TensorArray m rows) = Ok (Series vs) ∧ length vs = length rows ∧
        ∀ r row a, rows !! r = Some row → row !! (m - 1)%nat = Some a →
                   vs !! r = Some a.
Proof.
  intros Hm. unfold last_value. rewrite tensor_from_end_ok by done. simpl.
  eexists. split; [done|]. split; [by rewrite length_fmap|].
  intros r row a. apply from_end_lookup.
Qed.

Lemma nth_numeric j (row : list scalar) :
  (j < length row)%nat → Forall numeric row → numeric (nth j row NaN).
Proof.
  intros Hj Hrow. destruct (lookup_lt_is_Some_2 row j Hj) as [a Ha].
  rewrite (nth_lookup_Some _ _ NaN _ Ha).
  eapply Forall_lookup_1; eauto.
Qed.

Lemma week_delta_spec m rows :
  (8 ≤ m)%nat → Forall (λ row, length row = m) rows → Forall (Forall numeric) rows →
  ∃ vs, week_delta (TensorArray m rows) = Ok (Series vs) ∧ length vs = length rows ∧
        ∀ r row a b, rows !! r = Some row →
                     row !! (m - 1)%nat = Some a → row !! (m - 8)%nat = Some b →
                     ∃ v, np_subtract a b = Ok v ∧ vs !! r = Some v.
Proof.
  intros Hm Hlen Hnum. unfold week_delta.
  rewrite !tensor_from_end_ok by lia. simpl.
  destruct (subtract_arrays_spec
              ((λ row, nth (m - 1) row NaN) <$> rows)
              ((λ row, nth (m - 8) row NaN) <$> rows)) as (ds & -> & Hl & Hds).
  - by rewrite !length_fmap.
  - apply Forall_fmap, Forall_forall. intros row Hrow. simpl.
    apply nth_numeric.
    + rewrite (proj1 (Forall_forall _ _) Hlen row Hrow). lia.
    + by apply (proj1 (Forall_forall _ _) Hnum row Hrow).
  - apply Forall_fmap, Forall_forall. intros row Hrow. simpl.
    apply nth_numeric.
    + rewrite (proj1 (Forall_forall _ _) Hlen row Hrow). lia.
    + by apply (proj1 (Forall_forall _ _) Hnum row Hrow).
  - simpl. eexists. split; [done|]. rewrite length_fmap in Hl. split; [done|].
    intros r row a b Hr Ha Hb. apply Hds; by eapply from_end_lookup.
Qed.

Lemma week_delta_short m rows :
  (m < 8)%nat → week_delta (TensorArray m rows) = Raise IndexError.
Proof.
  intros Hm. unfold week_delta.
  destruct (decide (1 ≤ m)%nat) as [H1|H1].
  - by rewrite (tensor_from_end_ok 1 m rows H1), (tensor_from_end_short 8 m rows Hm).
  - rewrite (tensor_from_end_short 1 m rows); [reflexivity|lia].
Qed.

(** * The filling loop *)

Lemma fill_spec slice wide cols : NoDup cols → ∀ snap,
  (∀ col, col ∈ cols →
     ∃ c v, getitem wide col = Ok c ∧ slice c = Ok v ∧
            column_length v = length (index snap)) →
  ∃ snap', fill slice wide cols snap = Ok snap' ∧ index snap' = index snap ∧
    (∀ col, col ∈ cols →
       ∃ c v, getitem wide col = Ok c ∧ slice c = Ok v ∧
              columns snap' !! col = Some v) ∧
    (∀ col, col ∉ cols → columns snap' !! col = columns snap !! col).
Proof.
  induction 1 as [|col cols Hnotin Hnd IH]; intros snap Hcols; simpl.
  - exists snap. split; [done|]. split; [done|]. split; [|done].
    intros col Hcol. by apply elem_of_nil in Hcol.
  - destruct (Hcols col) as (c & v & Hc & Hv & Hlen); [left|].
    rewrite Hc; simpl. rewrite Hv; simpl.
    unfold setitem. rewrite decide_True by done. simpl.
    destruct (IH (mkFrame (index snap) (<[col := v]> (columns snap))))
      as (snap' & -> & Hidx & Hin & Hout).
    { intros col' Hcol'. apply Hcols. by right. }
    exists snap'. split; [done|]. split; [done|]. split.
    + intros col' [->|Hcol']%elem_of_cons.
      * exists c, v. repeat split; [done..|].
        rewrite Hout by done. simpl. apply lookup_insert_eq.
      * by apply Hin.
    + intros col' Hcol'. apply not_elem_of_cons in Hcol' as [Hne Hcol'].
      rewrite Hout by done. simpl. by rewrite lookup_insert_ne.
Qed.

Lemma select_static m wide :
  wide_ok m wide →
  ∃ sel, select wide static_columns = Ok sel ∧ index sel = index wide.
Proof.
  intros [Hstatic _].
  destruct (Hstatic "State") as (xs1 & H1 & _); [set_solver|].
  destruct (Hstatic "County") as (xs2 & H2 & _); [set_solver|].
  destruct (Hstatic "Population") as (xs3 & H3 & _); [set_solver|].
  unfold select, static_columns, getitem. simpl. rewrite H1, H2, H3. simpl.
  eauto.
Qed.

Lemma metric_columns_NoDup : NoDup metric_columns.
Proof. apply (bool_decide_unpack _). vm_compute. exact I. Qed.

(** A slicing cell on a well-formed wide table, given what the slice
    does on each tensor column. *)
Lemma derive_snapshot_ok name slice s wide dates :
  name ≠ "cases" →
  holds_wide s wide dates → wide_ok (length dates) wide →
  (∀ col rows, col ∈ metric_columns →
     columns wide !! col = Some (TensorArray (length dates) rows) →
     ∃ v, slice (TensorArray (length dates) rows) = Ok v ∧
          column_length v = length rows) →
  ∃ s' snap, derive_snapshot name slice s = Ok (tt, s') ∧
    frame_of s' name = Some snap ∧ index snap = index wide ∧
    ∀ col rows, col ∈ metric_columns →
      columns wide !! col = Some (TensorArray (length dates) rows) →
      ∃ v, slice (TensorArray (length dates) rows) = Ok v ∧
           columns snap !! col = Some v.
Proof.
  intros Hname (lc & ld & Hc & Hlc & _) Hwide Hslice.
  rewrite (derive_snapshot_run name slice s lc wide Hname Hc Hlc).
  destruct (select_static _ _ Hwide) as (sel & -> & Hsel). rewrite bind_Ok.
  destruct (fill_spec slice wide metric_columns metric_columns_NoDup sel)
    as (snap & -> & Hidx & Hin & _).
  { intros col Hcol. destruct (metric_ok _ _ Hwide col Hcol) as (rows & Hrows & Hlen & _).
    destruct (Hslice col rows Hcol Hrows) as (v & Hv & Hvl).
    exists (TensorArray (length dates) rows), v.
    unfold getitem. rewrite Hrows. simpl. repeat split; [done|]. congruence. }
  rewrite bind_Ok. eexists _, snap. split; [done|]. split; [|split; [congruence|]].
  - unfold frame_of. cbn [globals heap]. rewrite lookup_insert_eq. simpl.
    rewrite lookup_app_r by lia.
    by replace (S (length (heap s)) - length (heap s))%nat with 1%nat by lia.
  - intros col rows Hcol Hrows.
    destruct (Hin col Hcol) as (c & v & Hgc & Hv & Hsnap).
    unfold getitem in Hgc. rewrite Hrows in Hgc. simpl in Hgc.
    injection Hgc as <-. eauto.
Qed.

(** * The example tables are well formed *)

Ltac columns_cases H :=
  repeat (apply elem_of_cons in H as [->|H]); [..|by apply elem_of_nil in H].

Lemma example_holds_wide :
  holds_wide (store_after example_cells) (wide_after example_cells) example_days.
Proof. exists 1%nat, 2%nat. by vm_compute. Qed.

Lemma example_wide_ok : wide_ok 10 (wide_after example_cells).
Proof.
  split; intros c Hc.
  - unfold static_columns in Hc. columns_cases Hc; eexists; (split; [by vm_compute|done]).
  - unfold metric_columns in Hc.
    columns_cases Hc; eexists;
      (split; [by vm_compute|split; [done|by repeat constructor]]).
Qed.

Lemma example_counts_numeric : counts_numeric (wide_after example_cells).
Proof.
  intros c m rows Hc. unfold metric_columns in Hc.
  columns_cases Hc; vm_compute; intros [= <- <-]; by repeat constructor.
Qed.

Lemma short_holds_wide :
  holds_wide (store_after short_cells) (wide_after short_cells) (take 5 example_days).
Proof. exists 1%nat, 2%nat. by vm_compute. Qed.

Lemma short_wide_ok : wide_ok 5 (wide_after short_cells).
Proof.
  split; intros c Hc.
  - unfold static_columns in Hc. columns_cases Hc; eexists; (split; [by vm_compute|done]).
  - unfold metric_columns in Hc.
    columns_cases Hc; eexists;
      (split; [by vm_compute|split; [done|by repeat constructor]]).
Qed.

(** * Latest values and trailing-week deltas *)

(** C6.  On a wide table whose date axis is not empty, the cell that
    derives [latest_cases] returns, and binds [latest_cases] to a table
    over the same locations that holds, for each of the four sliced
    columns, one scalar per location: the element at position
    [|DateAxis| - 1] of the location's sequence. *)
Theorem latest_cases_last_position s wide dates :
  holds_wide s wide dates → wide_ok (length dates) wide → (1 ≤ length dates)%nat →
  ∃ s' snap, cell_latest_cases s = Ok (tt, s') ∧
    frame_of s' "latest_cases" = Some snap ∧ index snap = index wide ∧
    ∀ col rows, col ∈ metric_columns →
      columns wide !! col = Some (TensorArray (length dates) rows) →
      ∃ vs, columns snap !! col = Some (Series vs) ∧
            length vs = length (index wide) ∧
            ∀ r row a, rows !! r = Some row →
                       row !! (length dates - 1)%nat = Some a →
                       vs !! r = Some a.
Proof.
  intros Hs Hwide Hm.
  destruct (derive_snapshot_ok "latest_cases" last_value s wide dates)
    as (s' & snap & Hrun & Hsnap & Hidx & Hcols); [done..| |].
  { intros col rows _ _.
    destruct (last_value_spec (length dates) rows Hm) as (vs & -> & Hl & _). eauto. }
  exists s', snap. split; [done|]. split; [done|]. split; [done|].
  intros col rows Hcol Hrows.
  destruct (Hcols col rows Hcol Hrows) as (v & Hv & Hsc).
  destruct (last_value_spec (length dates) rows Hm) as (vs & Hvs & Hl & Hval).
  rewrite Hvs in Hv. injection Hv as <-.
  exists vs. split; [done|]. split; [|done].
  destruct (metric_ok _ _ Hwide col Hcol) as (rows' & Hrows' & Hlen & _).
  congruence.
Qed.

Lemma latest_cases_last_position_witness :
  ∃ s' snap, cell_latest_cases (store_after example_cells) = Ok (tt, s') ∧
    frame_of s' "latest_cases" = Some snap ∧
    index snap = index (wide_after example_cells) ∧
    ∀ col rows, col ∈ metric_columns →
      columns (wide_after example_cells) !! col
        = Some (TensorArray (length example_days) rows) →
      ∃ vs, columns snap !! col = Some (Series vs) ∧
            length vs = length (index (wide_after example_cells)) ∧
            ∀ r row a, rows !! r = Some row →
                       row !! (length example_days - 1)%nat = Some a →
                       vs !! r = Some a.
Proof.
  apply (latest_cases_last_position (store_after example_cells)
           (wide_after example_cells) example_days).
  - exact example_holds_wide.
  - exact example_wide_ok.
  - simpl. lia.
Defined.

(** C3.  On a wide table of integer or float counts whose date axis has
    at least 8 dates, the cell that derives [cases_this_week] returns,
    and binds [cases_this_week] to a table that holds, for each of the
    four sliced columns and each location, the element [a] at position
    [|DateAxis| - 1] minus the element [b] at position [|DateAxis| - 8]
    of the location's sequence: for two integers [x] and [y] the
    integer [x - y] (reduced into the 64-bit range, so [x - y] itself
    where it lies in that range), for two floats their IEEE binary64
    difference, and for an integer beside a float the difference after
    the integer is converted to a float. *)
Theorem cases_this_week_delta s wide dates :
  holds_wide s wide dates → wide_ok (length dates) wide → counts_numeric wide →
  (8 ≤ length dates)%nat →
  ∃ s' snap, cell_cases_this_week s = Ok (tt, s') ∧
    frame_of s' "cases_this_week" = Some snap ∧ index snap = index wide ∧
    ∀ col rows, col ∈ metric_columns →
      columns wide !! col = Some (TensorArray (length dates) rows) →
      ∃ vs, columns snap !! col = Some (Series vs) ∧
            length vs = length (index wide) ∧
            ∀ r row a b, rows !! r = Some row →
                         row !! (length dates - 1)%nat = Some a →
                         row !! (length dates - 8)%nat = Some b →
                         ∃ v, np_subtract a b = Ok v ∧ vs !! r = Some v ∧
                           (∀ x y, a = Int64 x → b = Int64 y →
                              v = Int64 ((x - y + 2 ^ 63) mod 2 ^ 64 - 2 ^ 63)%Z ∧
                              ((- 2 ^ 63 ≤ x - y < 2 ^ 63)%Z → v = Int64 (x - y))) ∧
                           (∀ x y, a = Float64 x → b = Float64 y →
                              v = Float64 (SFsub 53 1024 x y)) ∧
                           (∀ x y, a = Int64 x → b = Float64 y →
                              v = Float64 (SFsub 53 1024 (F64.of_Z x) y)) ∧
                           (∀ x y, a = Float64 x → b = Int64 y →
                              v = Float64 (SFsub 53 1024 x (F64.of_Z y))).
Proof.
  intros Hs Hwide Hnum Hm.
  assert (∀ col rows, col ∈ metric_columns →
            columns wide !! col = Some (TensorArray (length dates) rows) →
            Forall (λ row, length row = length dates) rows ∧
            Forall (Forall numeric) rows ∧ length rows = length (index wide)) as Hrows.
  { intros col rows Hcol Hrows.
    destruct (metric_ok _ _ Hwide col Hcol) as (rows' & Hrows' & Hlen & Hall).
    assert (rows' = rows) as -> by congruence.
    split; [done|]. split; [|done]. by eapply Hnum. }
  destruct (derive_snapshot_ok "cases_this_week" week_delta s wide dates)
    as (s' & snap & Hrun & Hsnap & Hidx & Hcols); [done..| |].
  { intros col rows Hcol Hc. destruct (Hrows col rows Hcol Hc) as (Hlen & Hn & _).
    destruct (week_delta_spec (length dates) rows Hm Hlen Hn) as (vs & -> & Hl & _).
    eauto. }
  exists s', snap. split; [done|]. split; [done|]. split; [done|].
  intros col rows Hcol Hc. destruct (Hrows col rows Hcol Hc) as (Hlen & Hn & Hix).
  destruct (Hcols col rows Hcol Hc) as (v & Hv & Hsc).
  destruct (week_delta_spec (length dates) rows Hm Hlen Hn) as (vs & Hvs & Hl & Hval).
  rewrite Hvs in Hv. injection Hv as <-.
  exists vs. split; [done|]. split; [congruence|].
  intros r row a b Hr Ha Hb. destruct (Hval r row a b Hr Ha Hb) as (v & Hsub & Hv).
  exists v. split; [done|]. split; [done|]. by apply np_subtract_value.
Qed.

Lemma cases_this_week_delta_witness :
  ∃ s' snap, cell_cases_this_week (store_after example_cells) = Ok (tt, s') ∧
    frame_of s' "cases_this_week" = Some snap ∧
    index snap = index (wide_after example_cells) ∧
    ∀ col rows, col ∈ metric_columns →
      columns (wide_after example_cells) !! col
        = Some (TensorArray (length example_days) rows) →
      ∃ vs, columns snap !! col = Some (Series vs) ∧
            length vs = length (index (wide_after example_cells)) ∧
            ∀ r row a b, rows !! r = Some row →
                         row !! (length example_days - 1)%nat = Some a →
                         row !! (length example_days - 8)%nat = Some b →
                         ∃ v, np_subtract a b = Ok v ∧ vs !! r = Some v ∧
                           (∀ x y, a = Int64 x → b = Int64 y →
                              v = Int64 ((x - y + 2 ^ 63) mod 2 ^ 64 - 2 ^ 63)%Z ∧
                              ((- 2 ^ 63 ≤ x - y < 2 ^ 63)%Z → v = Int64 (x - y))) ∧
                           (∀ x y, a = Float64 x → b = Float64 y →
                              v = Float64 (SFsub 53 1024 x y)) ∧
                           (∀ x y, a = Int64 x → b = Float64 y →
                              v = Float64 (SFsub 53 1024 (F64.of_Z x) y)) ∧
                           (∀ x y, a = Float64 x → b = Int64 y →
                              v = Float64 (SFsub 53 1024 x (F64.of_Z y))).
Proof.
  apply (cases_this_week_delta (store_after example_cells)
           (wide_after example_cells) example_days).
  - exact example_holds_wide.
  - exact example_wide_ok.
  - exact example_counts_numeric.
  - simpl. lia.
Defined.

(** C4.  On a wide table whose date axis has fewer than 8 dates the cell
    that derives [cases_this_week] returns nothing: slicing the first
    column raises numpy's [IndexError] (the notebook has no error class
    of its own for a history that is too short). *)
Theorem cases_this_week_short_history s wide dates :
  holds_wide s wide dates → wide_ok (length dates) wide → (length dates < 8)%nat →
  cell_cases_this_week s = Raise IndexError.
Proof.
  intros (lc & ld & Hc & Hlc & _) Hwide Hm. unfold cell_cases_this_week.
  rewrite (derive_snapshot_run _ _ s lc wide) by done.
  destruct (select_static _ _ Hwide) as (sel & -> & Hsel). rewrite bind_Ok.
  destruct (metric_ok _ _ Hwide "Confirmed") as (rows & Hrows & _).
  { unfold metric_columns. set_solver. }
  assert (getitem wide "Confirmed" = Ok (TensorArray (length dates) rows)) as Hget.
  { unfold getitem. by rewrite Hrows. }
  unfold metric_columns.
  change (fill week_delta wide ("Confirmed" :: ?cols) sel)
    with (c ← getitem wide "Confirmed"; v ← week_delta c;
          snap' ← setitem sel "Confirmed" v; fill week_delta wide cols snap').
  rewrite Hget, bind_Ok, week_delta_short by done. reflexivity.
Qed.

Lemma cases_this_week_short_history_witness :
  cell_cases_this_week (store_after short_cells) = Raise IndexError.
Proof.
  apply (cases_this_week_short_history (store_after short_cells)
           (wide_after short_cells) (take 5 example_days)).
  - exact short_holds_wide.
  - exact short_wide_ok.
  - simpl. lia.
Defined.

(** * Per-capita values *)

Lemma number_to_f64 p : number p → ∃ f, to_f64 p = Ok f.
Proof. destruct p; simpl; intros []; eauto. Qed.

Lemma multiply_numeric c x :
  numeric x → ∃ fx, to_f64 x = Ok fx ∧ np_multiply_float c x = Ok (Float64 (F64.mul c fx)).
Proof. destruct x; simpl; intros []; eauto. Qed.

Lemma divide_rows_length rows : ∀ pops q,
  divide_rows rows pops = Ok q → length q = length rows.
Proof.
  induction rows as [|row rows IH]; intros [|p pops] q; simpl; try done.
  - by intros [= <-].
  - destruct (traverse _ row); simpl; [|done].
    destruct (divide_rows rows pops) eqn:Hq; simpl; [|done].
    intros [= <-]. simpl. f_equal. by eapply IH.
Qed.

Lemma divide_rows_lookup rows : ∀ pops q r row p,
  divide_rows rows pops = Ok q → rows !! r = Some row → pops !! r = Some p →
  ∃ qrow, q !! r = Some qrow ∧ traverse (λ x, np_true_divide x p) row = Ok qrow.
Proof.
  induction rows as [|row' rows IH]; intros [|p' pops] q r row p; simpl; try done.
  destruct (traverse _ row') as [qrow'|] eqn:Hrow'; simpl; [|done].
  destruct (divide_rows rows pops) as [qs|] eqn:Hq; simpl; [|done].
  intros [= <-]. destruct r as [|r]; simpl.
  - intros [= <-] [= <-]. eauto.
  - by apply IH.
Qed.

Lemma divide_rows_total rows : ∀ pops,
  length rows = length pops →
  (∀ row p x, row ∈ rows → p ∈ pops → x ∈ row → ∃ y, np_true_divide x p = Ok y) →
  ∃ q, divide_rows rows pops = Ok q.
Proof.
  induction rows as [|row rows IH]; intros [|p pops] Hlen Hdiv; simplify_eq/=; [eauto|].
  destruct (traverse_total (λ x, np_true_divide x p) row) as [qrow ->].
  { intros x Hx. apply (Hdiv row p x); [left|left|done]. }
  simpl. destruct (IH pops Hlen) as [q ->]; [|simpl; eauto].
  intros row' p' x Hrow' Hp'. apply Hdiv; by right.
Qed.

(** A quotient by zero is not-a-number exactly when the dividend is zero
    or not-a-number; it is an infinity otherwise. *)
Lemma div_by_zero x y :
  F64.is_zero y = true →
  F64.is_nan (F64.div x y) = F64.is_zero x || F64.is_nan x ∧
  (F64.is_nan (F64.div x y) = false → F64.is_inf (F64.div x y) = true).
Proof. destruct y; [|done..]. by destruct x. Qed.

Lemma of_Z_zero : F64.of_Z 0 = S754_zero false.
Proof. reflexivity. Qed.

Lemma traverse_elem_of {A B} (f : A → result B) l ys y :
  traverse f l = Ok ys → y ∈ ys → ∃ x, x ∈ l ∧ f x = Ok y.
Proof.
  revert ys. induction l as [|x l IH]; intros ys; simpl.
  - intros [= <-] Hy. by apply elem_of_nil in Hy.
  - destruct (f x) as [z|] eqn:Hz; simpl; [|done].
    destruct (traverse f l) as [zs|]; simpl; [|done].
    intros [= <-] [->|Hy]%elem_of_cons.
    + exists x. split; [left|done].
    + destruct (IH zs eq_refl Hy) as (x' & Hx' & Hfx'). exists x'. split; [by right|done].
Qed.

Lemma multiply_float_is_float c a y :
  np_multiply_float c a = Ok y → ∃ f, y = Float64 f.
Proof. destruct a; simpl; intros [= <-]; eauto. Qed.

Lemma true_divide_total x p : number x → number p → ∃ y, np_true_divide x p = Ok y.
Proof.
  intros [fx Hx]%number_to_f64 [fp Hp]%number_to_f64.
  unfold np_true_divide. rewrite Hx, Hp. simpl. eauto.
Qed.

Lemma scale_rows_total c (rows : list (list scalar)) :
  Forall (Forall numeric) rows →
  ∃ scaled, traverse (traverse (np_multiply_float c)) rows = Ok scaled.
Proof.
  intros Hnum. apply traverse_total. intros row Hrow.
  apply traverse_total. intros x Hx.
  destruct (multiply_numeric c x) as (fx & _ & ->); [|eauto].
  eapply Forall_forall; [|done]. by eapply Forall_forall in Hnum.
Qed.

(** C5, as the code has it.  On a table whose count column [col] holds
    integer or float sequences and whose [Population] is a series of
    numbers, the per-capita transform raises nothing and returns a
    tensor of the same shape whose element [i] of row [r] is the
    [float64] value [100.0 * raw[i] / population], whatever the
    population.  Where the population is zero that quotient is
    not-a-number exactly when [100.0 * raw[i]] is zero or not-a-number,
    and an infinity otherwise. *)
Theorem per_100_quotient df col m rows pops :
  columns df !! col = Some (TensorArray m rows) →
  columns df !! "Population" = Some (Series pops) →
  length rows = length pops →
  Forall (Forall numeric) rows → Forall number pops →
  ∃ q, per_100 df col = Ok (TensorArray m q) ∧ length q = length rows ∧
    ∀ r i row p x, rows !! r = Some row → pops !! r = Some p → row !! i = Some x →
      ∃ fx fp, to_f64 x = Ok fx ∧ to_f64 p = Ok fp ∧
        let y := F64.div (F64.mul F64.hundred fx) fp in
        element q r i = Some (Float64 y) ∧
        (F64.is_zero fp = true →
           F64.is_nan y = F64.is_zero (F64.mul F64.hundred fx)
                          || F64.is_nan (F64.mul F64.hundred fx) ∧
           (F64.is_nan y = false → F64.is_inf y = true)).
Proof.
  intros Hcol Hpop Hlen Hnum Hpops.
  destruct (scale_rows_total F64.hundred rows Hnum) as [scaled Hscaled].
  assert (length scaled = length rows) as Hsl by by eapply traverse_length.
  destruct (divide_rows_total scaled pops) as [q Hq]; [congruence| |].
  { intros row p x Hrow Hp Hx.
    destruct (traverse_elem_of _ _ _ _ Hscaled Hrow) as (row0 & _ & Hrow0).
    destruct (traverse_elem_of _ _ _ _ Hrow0 Hx) as (x0 & _ & Hx0).
    apply multiply_float_is_float in Hx0 as [f ->].
    apply true_divide_total; [done|]. by eapply Forall_forall in Hpops. }
  exists q. split; [|split].
  - unfold per_100, getitem. rewrite Hcol. simpl lookup_or. rewrite bind_Ok, Hscaled, bind_Ok.
    rewrite Hpop. simpl lookup_or. by rewrite bind_Ok, Hq.
  - apply divide_rows_length in Hq. congruence.
  - intros r i row p x Hr Hp Hx.
    destruct (traverse_lookup _ _ _ _ _ Hscaled Hr) as (srow & Hsrow & Hsr).
    destruct (traverse_lookup _ _ _ _ _ Hsrow Hx) as (y & Hy & Hsx).
    destruct (divide_rows_lookup _ _ _ _ _ _ Hq Hsr Hp) as (qrow & Hqr & Hqrow).
    destruct (traverse_lookup _ _ _ _ _ Hqrow Hsx) as (z & Hz & Hqx).
    destruct (multiply_numeric F64.hundred x) as (fx & Hfx & Hmul).
    { eapply Forall_lookup_1; [|done]. by eapply Forall_lookup_1 in Hnum. }
    destruct (number_to_f64 p) as [fp Hfp]; [by eapply Forall_lookup_1 in Hpops|].
    rewrite Hmul in Hy. injection Hy as <-.
    unfold np_true_divide in Hz. simpl in Hz. rewrite Hfp in Hz. simpl in Hz.
    injection Hz as <-.
    exists fx, fp. split; [done|]. split; [done|]. split.
    + unfold element. rewrite Hqr. simpl. done.
    + apply div_by_zero.
Qed.

Lemma per_100_quotient_witness :
  ∃ q, per_100 zero_population_frame "Confirmed" = Ok (TensorArray 3 q) ∧
    length q = length [[Int64 5; Int64 0; Float64 F64.nan]] ∧
    ∀ r i row p x,
      [[Int64 5; Int64 0; Float64 F64.nan]] !! r = Some row →
      [Int64 0] !! r = Some p → row !! i = Some x →
      ∃ fx fp, to_f64 x = Ok fx ∧ to_f64 p = Ok fp ∧
        let y := F64.div (F64.mul F64.hundred fx) fp in
        element q r i = Some (Float64 y) ∧
        (F64.is_zero fp = true →
           F64.is_nan y = F64.is_zero (F64.mul F64.hundred fx)
                          || F64.is_nan (F64.mul F64.hundred fx) ∧
           (F64.is_nan y = false → F64.is_inf y = true)).
Proof.
  apply (per_100_quotient zero_population_frame "Confirmed" 3
           [[Int64 5; Int64 0; Float64 F64.nan]] [Int64 0]).
  - vm_compute. reflexivity.
  - vm_compute. reflexivity.
  - reflexivity.
  - repeat constructor.
  - repeat constructor.
Defined.

(** C5, counterexample.  With a population of zero the positions are not
    all not-a-number: where the count is 5 the value is plus infinity. *)
Lemma per_100_zero_population_infinite :
  per_100 zero_population_frame "Confirmed"
    = Ok (TensorArray 3 [[Float64 (S754_infinity false); NaN; NaN]]) ∧
  isna (Float64 (S754_infinity false)) = false.
Proof. split; vm_compute; reflexivity. Qed.

(** * Duplicate keys *)

(** C7.  A file in which some (FIPS, Date) pair occurs at two rows is
    refused when the index is built: [set_index] with
    [verify_integrity=True] raises pandas' [ValueError] for duplicate
    keys (the notebook's duplicate-key error), so the loading cell and
    with it the whole notebook raise, and no table is collapsed from
    such a file: none of the duplicates is dropped or merged. *)
Theorem duplicate_key_refused raw fips dates fs ds i j key s :
  raw !! "FIPS" = Some fips → raw !! "Date" = Some dates →
  traverse as_key fips = Ok fs → traverse as_key dates = Ok ds →
  i ≠ j → zip fs ds !! i = Some key → zip fs ds !! j = Some key →
  set_index_FIPS_Date raw = Raise (ValueError "Index has duplicate keys") ∧
  run (Load raw) s = Raise (ValueError "Index has duplicate keys") ∧
  notebook raw s = Raise (ValueError "Index has duplicate keys").
Proof.
  intros Hf Hd Hfs Hds Hij Hi Hj.
  assert (set_index_FIPS_Date raw = Raise (ValueError "Index has duplicate keys")) as Hset.
  { unfold set_index_FIPS_Date. rewrite Hf, Hd. simpl lookup_or.
    rewrite !bind_Ok, Hfs, bind_Ok, Hds, bind_Ok.
    rewrite decide_False; [done|].
    intros Hnd. apply Hij. eapply NoDup_lookup; eauto. }
  assert (run (Load raw) s = Raise (ValueError "Index has duplicate keys")) as Hrun.
  { simpl. unfold cell_load. by rewrite run_lift, Hset. }
  split; [done|]. split; [done|].
  unfold notebook. cbn [for_each]. by rewrite run_bind, Hrun.
Qed.

Lemma duplicate_key_refused_witness :
  set_index_FIPS_Date duplicate_raw = Raise (ValueError "Index has duplicate keys") ∧
  run (Load duplicate_raw) empty_store = Raise (ValueError "Index has duplicate keys") ∧
  notebook duplicate_raw empty_store = Raise (ValueError "Index has duplicate keys").
Proof.
  apply (duplicate_key_refused duplicate_raw
           (replicate 11 (Int64 1001)) (Int64 <$> (18628 :: example_days))%Z
           (replicate 11 1001%Z) (18628 :: example_days)%Z
           0%nat 1%nat (1001, 18628)%Z empty_store).
  - vm_compute. reflexivity.
  - vm_compute. reflexivity.
  - reflexivity.
  - reflexivity.
  - lia.
  - reflexivity.
  - reflexivity.
Defined.

(** * The end-to-end example *)

(** C8.  On the one-county, ten-day table the notebook runs through;
    the collapsed [Confirmed] sequence is the given one, the latest
    [Confirmed_per_100] is the float 4.0 and the this-week [Confirmed]
    is 25, the element at position 9 minus the element at position 2. *)
Theorem end_to_end_example :
  ∃ s, notebook example_raw empty_store = Ok (tt, s) ∧
    column_of s "cases" "Confirmed"
      = Some (TensorArray 10 [Int64 <$> [10; 12; 15; 15; 20; 22; 25; 30; 33; 40]%Z]) ∧
    column_of s "cases" "Population" = Some (Series [Int64 1000]) ∧
    column_of s "latest_cases" "Confirmed_per_100"
      = Some (Series [Float64 (S754_finite false 4503599627370496 (-50))]) ∧
    F64.of_Z 4 = S754_finite false 4503599627370496 (-50) ∧
    column_of s "cases_this_week" "Confirmed" = Some (Series [Int64 25]) ∧
    (Int64 <$> [10; 12; 15; 15; 20; 22; 25; 30; 33; 40]%Z) !! 9%nat = Some (Int64 40) ∧
    (Int64 <$> [10; 12; 15; 15; 20; 22; 25; 30; 33; 40]%Z) !! 2%nat = Some (Int64 15) ∧
    np_subtract (Int64 40) (Int64 15) = Ok (Int64 25).
Proof.
  eexists. split; [vm_compute; reflexivity|].
  repeat split; vm_compute; reflexivity.
Qed.

(** * Drawing *)

(** Boolean indexing by a mask computed from a column [xs] keeps the
    elements that stand beside an element of [xs] fulfilling the test. *)
Lemma compress_filter {A} (f : scalar → bool) (xs : list scalar) : ∀ l : list A,
  compress (f <$> xs) l = fst <$> filter (λ p, f p.2 = true) (zip l xs).
Proof.
  induction xs as [|x xs IH]; intros [|y l]; simpl; try done.
  rewrite filter_cons. simpl. destruct (f x) eqn:Hx.
  - rewrite decide_True by done. simpl. by rewrite IH.
  - rewrite decide_False by done. apply IH.
Qed.

Lemma compress_self (f : scalar → bool) (xs : list scalar) :
  compress (f <$> xs) xs = filter (λ x, f x = true) xs.
Proof.
  induction xs as [|x xs IH]; simpl; [done|].
  rewrite filter_cons. destruct (f x) eqn:Hx.
  - rewrite decide_True by done. f_equal. exact IH.
  - rewrite decide_False by done. exact IH.
Qed.

(** [Series.quantile] on a column of integers and floats is the
    interpolation. *)
Lemma quantile_operands_ok (xs : list scalar) :
  Forall real_valued xs → traverse quantile_operand xs = Ok xs.
Proof.
  induction 1 as [|x xs Hx _ IH]; [done|]. simpl. rewrite IH.
  by destruct x.
Qed.

Lemma quantile_operands_inv (xs ys : list scalar) :
  traverse quantile_operand xs = Ok ys → Forall real_valued xs.
Proof.
  revert ys. induction xs as [|x xs IH]; intros ys; [done|]. simpl.
  destruct (quantile_operand x) as [y|] eqn:Hx; [|done]. simpl.
  destruct (traverse quantile_operand xs) as [ys'|] eqn:Hxs; [|done].
  intros _. constructor; [by destruct x|by eapply IH].
Qed.

Lemma series_quantile_ok quantile (xs : list scalar) q :
  Forall real_valued xs → series_quantile quantile (Series xs) q = Ok (quantile xs q).
Proof. intros Hxs. unfold series_quantile. by rewrite quantile_operands_ok. Qed.

Lemma filter_real_valued (P : scalar → Prop) `{∀ x, Decision (P x)} (xs : list scalar) :
  Forall real_valued xs → Forall real_valued (filter P xs).
Proof.
  rewrite !Forall_forall. intros Hxs x [_ Hx]%list_elem_of_filter. by apply Hxs.
Qed.

(** C10.  [draw_map] on a table whose selected column is a series [xs]
    of integers or floats, called where the county outlines are loaded,
    draws exactly the rows at which [xs] is not a gap, in their order:
    the index and every series column of the table handed to the
    renderer are the elements standing beside a non-gap element of
    [xs], the selected column itself is [xs] without its gaps, and the
    colour scale runs from 0 to the quantile of these remaining values
    at the binary64 number the literal [0.95] denotes, the float next
    to 95/100. *)
Theorem draw_map_valid_rows (quantile : list scalar → spec_float → scalar)
    geo df col_name label_str xs county :
  columns df !! col_name = Some (Series xs) → Forall real_valued xs →
  columns df !! "County" = Some county →
  ∃ fig, draw_map quantile (Ok geo) df col_name label_str = Ok fig ∧
    index (data_frame fig)
      = fst <$> filter (λ p, notna p.2) (zip (index df) xs) ∧
    (∀ c ys, columns df !! c = Some (Series ys) →
       columns (data_frame fig) !! c
         = Some (Series (fst <$> filter (λ p, notna p.2) (zip ys xs)))) ∧
    columns (data_frame fig) !! col_name = Some (Series (filter notna xs)) ∧
    Forall notna (filter notna xs) ∧
    range_color fig
      = (Int64 0,
         quantile (filter notna xs) (S754_finite false 8556839292003942 (-53))) ∧
    S754_finite false 8556839292003942 (-53)
      = SFdiv 53 1024 (F64.of_Z 95) (F64.of_Z 100) ∧
    locations fig = format_05d <$> index (data_frame fig) ∧
    color fig = col_name ∧
    geojson fig = geo.
Proof.
  intros Hcol Hreal Hcounty.
  assert (∀ A (l : list (A * scalar)),
            filter (λ p, notna_b p.2 = true) l = filter (λ p, notna p.2) l) as Hzip.
  { intros A l. apply list_filter_iff. intros [y x]. unfold notna, notna_b. simpl.
    by destruct (isna x). }
  assert (filter (λ x, notna_b x = true) xs = filter notna xs) as Hself.
  { apply list_filter_iff. intros x. unfold notna, notna_b. by destruct (isna x). }
  assert (∀ c ys, columns df !! c = Some (Series ys) →
            columns (boolean_index df (notna_b <$> xs)) !! c
              = Some (Series (fst <$> filter (λ p, notna p.2) (zip ys xs)))) as Hseries.
  { intros c ys Hc. unfold boolean_index. cbn [columns]. rewrite lookup_fmap, Hc.
    cbn [fmap option_fmap option_map compress_column].
    by rewrite compress_filter, Hzip. }
  assert (columns (boolean_index df (notna_b <$> xs)) !! col_name
            = Some (Series (filter notna xs))) as Hvalid.
  { unfold boolean_index. cbn [columns]. rewrite lookup_fmap, Hcol.
    cbn [fmap option_fmap option_map compress_column].
    by rewrite compress_self, Hself. }
  assert (∃ c, columns (boolean_index df (notna_b <$> xs)) !! "County" = Some c)
    as [c Hc].
  { unfold boolean_index. cbn [columns]. rewrite lookup_fmap, Hcounty. simpl. eauto. }
  unfold draw_map, getitem. rewrite Hcol. simpl lookup_or. rewrite bind_Ok.
  unfold notna_mask. rewrite !bind_Ok. cbv zeta.
  change (compress_column (notna_b <$> xs) <$> columns df)
    with (columns (boolean_index df (notna_b <$> xs))).
  rewrite Hvalid, Hc. unfold lookup_or. rewrite bind_Ok.
  rewrite series_quantile_ok by by apply filter_real_valued.
  rewrite !bind_Ok.
  eexists. split; [done|]. cbn [data_frame range_color locations color geojson].
  split; [unfold boolean_index; cbn [index]; by rewrite compress_filter, Hzip|].
  split; [done|]. split; [done|]. split.
  { apply Forall_forall. intros x Hx. by apply list_elem_of_filter in Hx as [? _]. }
  split; [done|]. split; [by vm_compute|done].
Qed.

Lemma draw_map_valid_rows_witness :
  ∃ fig, draw_map (λ xs _, default NaN (last xs)) (Ok example_outlines)
           snapshot_with_gap "Confirmed" "Confirmed Cases " = Ok fig ∧
    index (data_frame fig) = [1001; 56045]%Z ∧
    columns (data_frame fig) !! "Confirmed"
      = Some (Series [Float64 (F64.of_Z 40); Float64 (F64.of_Z 7)]) ∧
    locations fig = ["01001"; "56045"].
Proof.
  destruct (draw_map_valid_rows (λ xs _, default NaN (last xs)) example_outlines
              snapshot_with_gap "Confirmed" "Confirmed Cases "
              [Float64 (F64.of_Z 40); NaN; Float64 (F64.of_Z 7)]
              (Series [Str "Autauga"; Str "Baldwin"; Str "Weston"]))
    as (fig & Hfig & Hidx & _ & Hcol & _ & _ & _ & Hloc & _).
  - vm_compute. reflexivity.
  - repeat constructor.
  - vm_compute. reflexivity.
  - exists fig. split; [exact Hfig|]. split; [exact Hidx|]. split; [exact Hcol|].
    rewrite Hloc, Hidx. vm_compute. reflexivity.
Defined.

(** C10, counterexample.  Not every column of a snapshot table can be
    selected: [latest_cases] as the notebook derives it has the column
    [County], a column of strings without a gap, and drawing it raises
    [TypeError] where the quantile is taken, although the outlines are
    loaded and no row is left out. *)
Lemma draw_map_string_column_raises :
  column_of (drawing_store (example_cells ++ [LatestCases])) "latest_cases" "County"
    = Some (Series [Str "Autauga"]) ∧
  counties_global (drawing_store (example_cells ++ [LatestCases]))
    = Ok example_outlines ∧
  cell_draw (λ xs _, default NaN (last xs)) "latest_cases" "County" "Counties"
    (drawing_store (example_cells ++ [LatestCases])) = Raise TypeError ∧
  draw_map (λ xs _, default NaN (last xs)) (Ok example_outlines)
    snapshot_with_gap "County" "Counties" = Raise TypeError.
Proof. repeat split; vm_compute; reflexivity. Qed.

(** * What the cells change *)

Section Inversion.
Context {B : Type}.
Implicit Types (s : store) (r : B * store).

Lemma var_inv x (f : nat → Cell B) s r :
  (var x ≫= f) s = Ok r → ∃ l, globals s !! x = Some l ∧ f l s = Ok r.
Proof.
  rewrite run_bind. unfold var. destruct (globals s !! x) as [l|]; [eauto|done].
Qed.

Lemma frame_at_inv l (f : DataFrame → Cell B) s r :
  (frame_at l ≫= f) s = Ok r →
  ∃ df, heap s !! l = Some (FrameObj df) ∧ f df s = Ok r.
Proof.
  rewrite run_bind. unfold frame_at. rewrite run_bind. unfold deref.
  destruct (heap s !! l) as [[]|]; try done. eauto.
Qed.

Lemma long_at_inv l (f : LongFrame → Cell B) s r :
  (long_at l ≫= f) s = Ok r →
  ∃ lt, heap s !! l = Some (LongObj lt) ∧ f lt s = Ok r.
Proof.
  rewrite run_bind. unfold long_at. rewrite run_bind. unfold deref.
  destruct (heap s !! l) as [[]|]; try done. eauto.
Qed.

Lemma lift_inv {A} (m : result A) (f : A → Cell B) s r :
  (lift m ≫= f) s = Ok r → ∃ a, m = Ok a ∧ f a s = Ok r.
Proof. rewrite run_lift. destruct m; [eauto|done]. Qed.
End Inversion.

Lemma objects_kept_app s os g : objects_kept s (mkStore (heap s ++ os) g).
Proof. intros l o Hl. simpl. by apply lookup_app_l_Some. Qed.

Lemma setitem_inv df col c df' :
  setitem df col c = Ok df' →
  index df' = index df ∧ columns df' = <[col := c]> (columns df).
Proof. unfold setitem. case_decide; [|done]. by intros [= <-]. Qed.

Lemma assign_per_100_frame target source s s' :
  assign_per_100 target source s = Ok (tt, s') →
  frame_columns_set "cases" [target] s s'.
Proof.
  unfold assign_per_100.
  intros (l & Hl & (df & Hdf & (c & Hc & Hset)%lift_inv)%frame_at_inv)%var_inv.
  rewrite (run_setitem_var _ _ _ _ _ _ Hl Hdf) in Hset.
  destruct (setitem df target c) as [df'|] eqn:Hdf'; [|done].
  injection Hset as <-. apply setitem_inv in Hdf' as [Hidx Hcols].
  split; [done|]. exists l, df, df'. repeat split; [done..|].
  intros col Hcol. rewrite Hcols. apply lookup_insert_ne. set_solver.
Qed.

Lemma frame_columns_set_trans name cols1 cols2 s1 s2 s3 :
  frame_columns_set name cols1 s1 s2 → frame_columns_set name cols2 s2 s3 →
  frame_columns_set name (cols1 ++ cols2)%list s1 s3.
Proof.
  intros [Hg1 (l & df & df' & Hl & Hdf & Hh & Hi & Hc)]
         [Hg2 (l2 & df2 & df2' & Hl2 & Hdf2 & Hh2 & Hi2 & Hc2)].
  split; [congruence|].
  rewrite Hg1, Hl in Hl2. injection Hl2 as <-.
  rewrite Hh, list_lookup_insert_eq in Hdf2 by (by eapply lookup_lt_Some).
  injection Hdf2 as <-.
  exists l, df, df2'. repeat split; [done..| | |].
  - by rewrite Hh2, Hh, list_insert_insert_eq.
  - congruence.
  - intros col Hcol. rewrite Hc2, Hc; [done|set_solver..].
Qed.

Lemma cast_step_frame col s s' :
  (l ← var "cases_vertical";
   lt ← long_at l;
   xs ← lift (lookup_or (KeyError col) (long_columns lt !! col));
   ys ← lift (traverse astype_int8 xs);
   l' ← var "cases_vertical";
   lt' ← long_at l';
   update l' (LongObj (mkLong (long_index lt') (<[col := ys]> (long_columns lt'))))) s
    = Ok (tt, s') →
  long_columns_set "cases_vertical" [col] s s'.
Proof.
  intros (l & Hl & (lt & Hlt & (xs & _ & (ys & _ & H)%lift_inv)%lift_inv)%long_at_inv)%var_inv.
  rewrite (run_var _ _ _ _ Hl), (run_long_at _ _ _ _ Hlt) in H.
  injection H as <-.
  split; [done|]. eexists l, lt, _. repeat split; [done..|].
  intros c Hc. simpl. apply lookup_insert_ne. set_solver.
Qed.

Lemma long_columns_set_trans name cols1 cols2 s1 s2 s3 :
  long_columns_set name cols1 s1 s2 → long_columns_set name cols2 s2 s3 →
  long_columns_set name (cols1 ++ cols2)%list s1 s3.
Proof.
  intros [Hg1 (l & df & df' & Hl & Hdf & Hh & Hi & Hc)]
         [Hg2 (l2 & df2 & df2' & Hl2 & Hdf2 & Hh2 & Hi2 & Hc2)].
  split; [congruence|].
  rewrite Hg1, Hl in Hl2. injection Hl2 as <-.
  rewrite Hh, list_lookup_insert_eq in Hdf2 by (by eapply lookup_lt_Some).
  injection Hdf2 as <-.
  exists l, df, df2'. repeat split; [done..| | |].
  - by rewrite Hh2, Hh, list_insert_insert_eq.
  - congruence.
  - intros col Hcol. rewrite Hc2, Hc; [done|set_solver..].
Qed.

(** Sequencing two computations that both return. *)
Lemma seq_inv {A B} (m : Cell A) (k : Cell B) s r :
  (m ;; k) s = Ok r → ∃ a s1, m s = Ok (a, s1) ∧ k s1 = Ok r.
Proof. rewrite run_bind. destruct (m s) as [[a s1]|]; [eauto|done]. Qed.

Lemma cast_outliers_frame s s' :
  cell_cast_outliers s = Ok (tt, s') →
  long_columns_set "cases_vertical" outlier_columns s s'.
Proof.
  unfold cell_cast_outliers, outlier_columns. cbn [for_each].
  intros ([] & s1 & H1 & ([] & s2 & H2 & ([] & s3 & H3 & H4)%seq_inv)%seq_inv)%seq_inv.
  injection H4 as <-.
  apply cast_step_frame in H1, H2, H3.
  apply (long_columns_set_trans _ ["Confirmed_Outlier"]
           ["Deaths_Outlier"; "Recovered_Outlier"] s s1 s3 H1).
  by apply (long_columns_set_trans _ ["Deaths_Outlier"] ["Recovered_Outlier"] s1 s2 s3).
Qed.

Lemma per_capita_frame s s' :
  cell_per_capita s = Ok (tt, s') →
  frame_columns_set "cases" ["Confirmed_per_100"; "Deaths_per_100"] s s'.
Proof.
  unfold cell_per_capita. intros ([] & s1 & H1 & H2)%seq_inv.
  apply assign_per_100_frame in H1, H2.
  by apply (frame_columns_set_trans _ ["Confirmed_per_100"] ["Deaths_per_100"] s s1 s').
Qed.

Lemma derive_snapshot_frame name slice s s' :
  name ≠ "cases" → derive_snapshot name slice s = Ok (tt, s') → objects_kept s s'.
Proof.
  intros Hname H. pose proof H as H'.
  unfold derive_snapshot, select_copy in H'. rewrite !run_assoc in H'.
  apply var_inv in H' as (lc & Hc & H'). rewrite !run_assoc in H'.
  apply frame_at_inv in H' as (wide & Hlc & _).
  rewrite (derive_snapshot_run name slice s lc wide Hname Hc Hlc) in H.
  destruct (select wide static_columns) as [sel|]; [|done]. rewrite bind_Ok in H.
  destruct (fill slice wide metric_columns sel) as [snap|]; [|done]. rewrite bind_Ok in H.
  injection H as <-. apply objects_kept_app.
Qed.

(** C9, as the code has it.  A cell that returns changes the objects of
    the store as follows.  Loading, collapsing and the two slicing cells
    leave every existing object as it is (they only create objects): in
    particular deriving [latest_cases] and [cases_this_week] changes no
    column of the wide table nor of the long table.  The per-capita cell
    updates the wide table in place, setting the two per-capita columns
    and nothing else.  The casting cell updates the long table in place,
    setting the three outlier columns and nothing else. *)
Theorem cells_frame c s s' : run c s = Ok (tt, s') → frame_effect c s s'.
Proof.
  destruct c as [raw| | | | |]; simpl; intros H.
  - unfold cell_load in H. apply lift_inv in H as (lt & _ & H).
    rewrite run_new in H. injection H as <-. apply objects_kept_app.
  - by apply cast_outliers_frame.
  - unfold cell_collapse in H.
    apply var_inv in H as (l & _ & (lt & _ & ([wide dates] & _ & H)%lift_inv)%long_at_inv).
    rewrite !run_new, !run_assign in H. injection H as <-. cbn [heap].
    rewrite <- (assoc_L app). apply objects_kept_app.
  - by apply per_capita_frame.
  - by apply (derive_snapshot_frame "latest_cases" last_value).
  - by apply (derive_snapshot_frame "cases_this_week" week_delta).
Qed.

Lemma cells_frame_witness :
  frame_effect LatestCases (store_after example_cells)
    (store_after (example_cells ++ [LatestCases])).
Proof.
  apply (cells_frame LatestCases (store_after example_cells)
           (store_after (example_cells ++ [LatestCases]))).
  vm_compute. reflexivity.
Defined.

(** C9, counterexample.  The long table does not stay as loaded: the
    casting cell replaces, in the very object [cases_vertical] is bound
    to, the boolean outlier flags by [int8] values. *)
Lemma cast_outliers_mutates_long_table :
  run CastOutliers (store_after [Load example_raw])
    = Ok (tt, store_after [Load example_raw; CastOutliers]) ∧
  globals (store_after [Load example_raw; CastOutliers]) !! "cases_vertical"
    = globals (store_after [Load example_raw]) !! "cases_vertical" ∧
  (lt ← long_of (store_after [Load example_raw]) "cases_vertical";
   long_columns lt !! "Confirmed_Outlier") = Some (replicate 10 (Bool false)) ∧
  (lt ← long_of (store_after [Load example_raw; CastOutliers]) "cases_vertical";
   long_columns lt !! "Confirmed_Outlier") = Some (replicate 10 (Int8 0)).
Proof. repeat split; vm_compute; reflexivity. Qed.

(** * The collapser *)

Section SortedDistinct.
Implicit Types (l : list Z) (x : Z).

Lemma elem_of_sorted_distinct l x : x ∈ sorted_distinct l ↔ x ∈ l.
Proof.
  unfold sorted_distinct. rewrite merge_sort_Permutation.
  apply elem_of_remove_dups.
Qed.

Lemma NoDup_sorted_distinct l : NoDup (sorted_distinct l).
Proof.
  unfold sorted_distinct. rewrite merge_sort_Permutation.
  apply NoDup_remove_dups.
Qed.

Lemma length_sorted_distinct l :
  length (sorted_distinct l) = size (list_to_set l : gset Z).
Proof.
  unfold sorted_distinct. rewrite merge_sort_Permutation.
  rewrite <- (size_list_to_set (C := gset Z)) by apply NoDup_remove_dups.
  f_equal. apply set_eq. intros x.
  by rewrite !elem_of_list_to_set, elem_of_remove_dups.
Qed.

(** Ascending without repetition: strictly ascending. *)
Lemma strictly_ascending l :
  StronglySorted Z.le l → NoDup l → StronglySorted Z.lt l.
Proof.
  induction 1 as [|x l Hl IH Hx]; intros Hnd; [constructor|].
  apply NoDup_cons in Hnd as [Hnotin Hnd].
  constructor; [by apply IH|].
  apply Forall_forall. intros y Hy.
  assert (x ≤ y)%Z by by eapply Forall_forall in Hx.
  assert (x ≠ y) by (intros ->; done). lia.
Qed.

Lemma Sorted_sorted_distinct l : Sorted Z.lt (sorted_distinct l).
Proof.
  apply StronglySorted_Sorted, strictly_ascending.
  - unfold sorted_distinct. apply StronglySorted_merge_sort; apply _.
  - apply NoDup_sorted_distinct.
Qed.
End SortedDistinct.

Section Position.
Context `{EqDecision A}.
Implicit Types (l : list A) (x : A).

Lemma position_Some x l i : position x l = Some i → l !! i = Some x.
Proof.
  unfold position. destruct (list_find _ l) as [[j y]|] eqn:Hf; [|done].
  simpl. intros [= <-]. apply list_find_Some in Hf as (Hj & -> & _). done.
Qed.

Lemma position_elem_of x l : x ∈ l → ∃ i, position x l = Some i ∧ l !! i = Some x.
Proof.
  intros Hx. destruct (list_find_elem_of (λ y, y = x) l x Hx eq_refl) as [[i y] Hf].
  exists i. assert (position x l = Some i) as Hp by (unfold position; by rewrite Hf).
  split; [done|]. by apply position_Some.
Qed.

Lemma position_NoDup x l i : NoDup l → l !! i = Some x → position x l = Some i.
Proof.
  intros Hnd Hi. destruct (position_elem_of x l) as (j & Hj & Hlj).
  { by eapply list_elem_of_lookup_2. }
  rewrite Hj. f_equal. eapply NoDup_lookup; eauto.
Qed.
End Position.

Section BuildColumns.
Context {B : Type} (g : string → result B).

Lemma build_columns_total names :
  (∀ c, c ∈ names → ∃ y, g c = Ok y) → ∃ m, build_columns g names = Ok m.
Proof.
  intros Hg. unfold build_columns.
  destruct (traverse_total (λ c, y ← g c; Ok (c, y)) names) as [kvs ->]; [|eauto].
  intros c Hc. destruct (Hg c Hc) as [y ->]. eauto.
Qed.

Lemma named_lookup names : ∀ kvs c,
  traverse (λ c, y ← g c; Ok (c, y)) names = Ok kvs → c ∈ names →
  ∃ y, g c = Ok y ∧ (list_to_map kvs : gmap string B) !! c = Some y.
Proof.
  induction names as [|n names IH]; intros kvs c; simpl.
  - intros _ Hc. by apply elem_of_nil in Hc.
  - destruct (g n) as [y|] eqn:Hy; simpl; [|done].
    destruct (traverse _ names) as [kvs'|] eqn:Hkvs; simpl; [|done].
    intros [= <-] Hc. simpl. destruct (decide (c = n)) as [->|Hne].
    + exists y. split; [done|]. apply lookup_insert_eq.
    + apply elem_of_cons in Hc as [->|Hc]; [done|].
      destruct (IH kvs' c eq_refl Hc) as (y' & Hy' & Hl).
      exists y'. split; [done|]. by rewrite lookup_insert_ne.
Qed.

Lemma build_columns_lookup names m c :
  build_columns g names = Ok m → c ∈ names →
  ∃ y, g c = Ok y ∧ m !! c = Some y.
Proof.
  unfold build_columns.
  destruct (traverse _ names) as [kvs|] eqn:Hkvs; simpl; [|done].
  intros [= <-]. by apply named_lookup.
Qed.
End BuildColumns.

(** A traversal returns the list that holds the results position by
    position. *)
Lemma traverse_pointwise {A B} (f : A → result B) l : ∀ ys,
  length l = length ys →
  (∀ i x y, l !! i = Some x → ys !! i = Some y → f x = Ok y) →
  traverse f l = Ok ys.
Proof.
  induction l as [|x l IH]; intros [|y ys] Hlen Hf; simplify_eq/=; [done|].
  rewrite (Hf 0%nat x y eq_refl eq_refl). simpl.
  rewrite (IH ys Hlen); [done|]. intros i. apply (Hf (S i)).
Qed.

(** The collapser returns on a uniquely keyed table that has the
    requested fields, and its tensors are the collapsed fields. *)
Lemma collapse_ok lt ts_cols :
  NoDup (long_index lt) →
  (∀ f, f ∈ ts_cols → is_Some (long_columns lt !! f)) →
  let keys := long_index lt in
  let dates := sorted_distinct (snd <$> keys) in
  let locs := sorted_distinct (fst <$> keys) in
  ∃ wide, collapse_time_series lt ts_cols = Ok (wide, dates) ∧
    index wide = locs ∧
    ∀ f, f ∈ ts_cols →
      ∃ xs, long_columns lt !! f = Some xs ∧
            columns wide !! f = Some (collapse_series keys locs dates xs).
Proof.
  intros Hnd Hcols keys dates locs. unfold collapse_time_series.
  rewrite decide_True by done. cbv zeta. fold keys dates locs.
  destruct (build_columns_total
              (λ c, xs ← lookup_or (KeyError c) (long_columns lt !! c);
                    Ok (collapse_series keys locs dates xs)) ts_cols) as [ts Hts].
  { intros c Hc. destruct (Hcols c Hc) as [xs ->]. simpl. eauto. }
  rewrite Hts, bind_Ok. eexists. split; [done|]. split; [done|].
  intros f Hf. destruct (build_columns_lookup _ _ _ _ Hts Hf) as (y & Hy & Hl).
  destruct (long_columns lt !! f) as [xs|]; [|done]. simpl in Hy. injection Hy as <-.
  exists xs. split; [done|]. simpl. by apply lookup_union_Some_l.
Qed.

(** C2.  On a uniquely keyed long table that has the requested fields
    the collapser returns a wide table and a date axis such that: the
    axis is strictly ascending (sorted, no duplicates), holds exactly
    the dates of the input, and has as many entries as the input has
    distinct dates; every requested field is a tensor column with one
    row per location, each row of the length of the date axis. *)
Theorem collapse_well_formed lt ts_cols :
  NoDup (long_index lt) →
  (∀ f, f ∈ ts_cols → is_Some (long_columns lt !! f)) →
  ∃ wide dates, collapse_time_series lt ts_cols = Ok (wide, dates) ∧
    Sorted Z.lt dates ∧ NoDup dates ∧
    (∀ d, d ∈ dates ↔ d ∈ snd <$> long_index lt) ∧
    length dates = size (list_to_set (snd <$> long_index lt) : gset Z) ∧
    ∀ f, f ∈ ts_cols →
      ∃ rows, columns wide !! f = Some (TensorArray (length dates) rows) ∧
              length rows = length (index wide) ∧
              Forall (λ row, length row = length dates) rows.
Proof.
  intros Hnd Hcols.
  destruct (collapse_ok lt ts_cols Hnd Hcols) as (wide & Hrun & Hidx & Hts).
  eexists wide, _. split; [exact Hrun|].
  split; [apply Sorted_sorted_distinct|].
  split; [apply NoDup_sorted_distinct|].
  split; [intros d; apply elem_of_sorted_distinct|].
  split; [apply length_sorted_distinct|].
  intros f Hf. destruct (Hts f Hf) as (xs & _ & ->).
  eexists. split; [reflexivity|]. split.
  - by rewrite length_fmap, Hidx.
  - apply Forall_fmap, Forall_forall. intros l _. simpl. by rewrite length_fmap.
Qed.

(** The cell of a collapsed field at the place of a key of the input. *)
Lemma wide_cell_collapsed lt ts_cols wide dates f xs i key v :
  NoDup (long_index lt) →
  (∀ f, f ∈ ts_cols → is_Some (long_columns lt !! f)) →
  collapse_time_series lt ts_cols = Ok (wide, dates) →
  f ∈ ts_cols → long_columns lt !! f = Some xs →
  long_index lt !! i = Some key → xs !! i = Some v →
  wide_cell wide dates f key = Some v.
Proof.
  intros Hnd Hcols Hrun Hf Hxs Hi Hv.
  destruct (collapse_ok lt ts_cols Hnd Hcols) as (wide' & Hrun' & Hidx & Hts).
  rewrite Hrun in Hrun'. injection Hrun' as <- ->.
  destruct (Hts f Hf) as (xs' & Hxs' & Hcol).
  assert (xs' = xs) as -> by congruence.
  destruct key as [l d].
  destruct (position_elem_of l (index wide)) as (r & Hr & Hlr).
  { rewrite Hidx. apply elem_of_sorted_distinct.
    apply list_elem_of_fmap. exists (l, d). split; [done|].
    by eapply list_elem_of_lookup_2. }
  destruct (position_elem_of d (sorted_distinct (snd <$> long_index lt)))
    as (j & Hj & Hdj).
  { apply elem_of_sorted_distinct.
    apply list_elem_of_fmap. exists (l, d). split; [done|].
    by eapply list_elem_of_lookup_2. }
  unfold wide_cell. simpl. rewrite Hr. simpl. rewrite Hj. simpl.
  rewrite Hcol. simpl. unfold collapse_series.
  rewrite list_lookup_fmap. rewrite <- Hidx, Hlr. simpl.
  rewrite list_lookup_fmap, Hdj. simpl.
  rewrite (position_NoDup (l, d) (long_index lt) i Hnd Hi). simpl.
  by rewrite Hv.
Qed.

(** C1.  Round trip: on a uniquely keyed long table whose requested
    fields have one value per row, collapsing and then re-expanding at
    the keys of the table returns, for each requested field, the
    original column: the original scalar at every (location, date). *)
Theorem collapse_round_trip lt ts_cols :
  NoDup (long_index lt) →
  (∀ f, f ∈ ts_cols →
     ∃ xs, long_columns lt !! f = Some xs ∧ length xs = length (long_index lt)) →
  ∃ wide dates back,
    collapse_time_series lt ts_cols = Ok (wide, dates) ∧
    expand_time_series wide dates (long_index lt) ts_cols = Ok back ∧
    long_index back = long_index lt ∧
    ∀ f, f ∈ ts_cols → long_columns back !! f = long_columns lt !! f.
Proof.
  intros Hnd Hcols.
  assert (∀ f, f ∈ ts_cols → is_Some (long_columns lt !! f)) as Hsome.
  { intros f Hf. destruct (Hcols f Hf) as (xs & -> & _). eauto. }
  destruct (collapse_ok lt ts_cols Hnd Hsome) as (wide & Hrun & _).
  set (dates := sorted_distinct (snd <$> long_index lt)) in *.
  assert (∀ f xs, f ∈ ts_cols → long_columns lt !! f = Some xs →
            traverse (λ key, lookup_or (KeyError f) (wide_cell wide dates f key))
              (long_index lt) = Ok xs) as Hback.
  { intros f xs Hf Hxs. apply traverse_pointwise.
    - destruct (Hcols f Hf) as (xs' & Hxs' & Hlen). congruence.
    - intros i key v Hi Hv.
      by rewrite (wide_cell_collapsed lt ts_cols wide dates f xs i key v). }
  destruct (build_columns_total
              (λ c, traverse (λ key, lookup_or (KeyError c) (wide_cell wide dates c key))
                      (long_index lt)) ts_cols) as [cols Hbuild].
  { intros f Hf. destruct (Hcols f Hf) as (xs & Hxs & _). eauto. }
  exists wide, dates, (mkLong (long_index lt) cols).
  split; [done|]. split; [|split; [done|]].
  - unfold expand_time_series. by rewrite Hbuild.
  - intros f Hf. simpl.
    destruct (build_columns_lookup _ _ _ _ Hbuild Hf) as (ys & Hys & ->).
    destruct (Hcols f Hf) as (xs & Hxs & _).
    rewrite (Hback f xs Hf Hxs) in Hys. congruence.
Qed.

Lemma gappy_long_NoDup : NoDup (long_index gappy_long).
Proof. apply (bool_decide_unpack _). vm_compute. exact I. Qed.

(** The gap of the second county is filled by not-a-number, and the rows
    and the dates come out in ascending order. *)
Example collapse_gappy :
  collapse_time_series gappy_long ["Confirmed"]
  = Ok (mkFrame [1001; 1003]%Z
          (list_to_map
             [("Confirmed", TensorArray 2 [[Int64 5; Int64 6]; [NaN; Int64 7]]);
              ("Population", Series [Int64 1000; Int64 200])]),
        [18628; 18629]%Z).
Proof. vm_compute. reflexivity. Qed.

Lemma collapse_well_formed_witness :
  ∃ wide dates, collapse_time_series gappy_long ["Confirmed"] = Ok (wide, dates) ∧
    Sorted Z.lt dates ∧ NoDup dates ∧
    (∀ d, d ∈ dates ↔ d ∈ snd <$> long_index gappy_long) ∧
    length dates = size (list_to_set (snd <$> long_index gappy_long) : gset Z) ∧
    ∀ f, f ∈ ["Confirmed"] →
      ∃ rows, columns wide !! f = Some (TensorArray (length dates) rows) ∧
              length rows = length (index wide) ∧
              Forall (λ row, length row = length dates) rows.
Proof.
  apply (collapse_well_formed gappy_long ["Confirmed"]).
  - exact gappy_long_NoDup.
  - intros f ->%list_elem_of_singleton. vm_compute. eauto.
Defined.

Lemma collapse_round_trip_witness :
  ∃ wide dates back,
    collapse_time_series gappy_long ["Confirmed"] = Ok (wide, dates) ∧
    expand_time_series wide dates (long_index gappy_long) ["Confirmed"] = Ok back ∧
    long_index back = long_index gappy_long ∧
    ∀ f, f ∈ ["Confirmed"] → long_columns back !! f = long_columns gappy_long !! f.
Proof.
  apply (collapse_round_trip gappy_long ["Confirmed"]).
  - exact gappy_long_NoDup.
  - intros f ->%list_elem_of_singleton. eexists. split; vm_compute; reflexivity.
Defined.

(** * Loading, further *)

Lemma as_key_int_val x z : as_key x = Ok z → integral x ∧ int_val x = z.
Proof. destruct x; simpl; intros [= <-]; done. Qed.

(** X1.  Whatever the loader returns is uniquely keyed: its index, one
    pair per row of the file, has no repetition; the two key columns
    have left the columns and every other column is kept as read. *)
Theorem load_uniquely_keyed raw lt :
  set_index_FIPS_Date raw = Ok lt →
  NoDup (long_index lt) ∧
  long_columns lt !! "FIPS" = None ∧ long_columns lt !! "Date" = None ∧
  (∀ col, col ≠ "FIPS" → col ≠ "Date" → long_columns lt !! col = raw !! col) ∧
  ∃ fips dates, raw !! "FIPS" = Some fips ∧ raw !! "Date" = Some dates ∧
    length (long_index lt) = min (length fips) (length dates).
Proof.
  unfold set_index_FIPS_Date.
  destruct (raw !! "FIPS") as [fips|] eqn:Hf; [|done].
  destruct (raw !! "Date") as [dates|] eqn:Hd; [|done].
  simpl lookup_or. rewrite !bind_Ok.
  destruct (traverse as_key fips) as [fs|] eqn:Hfs; [|done]. rewrite bind_Ok.
  destruct (traverse as_key dates) as [ds|] eqn:Hds; [|done]. rewrite bind_Ok.
  case_decide as Hnd; [|done]. intros [= <-]. simpl.
  split; [done|]. split; [by rewrite lookup_delete_ne, lookup_delete_eq|].
  split; [by rewrite lookup_delete_eq|]. split.
  { intros col H1 H2. by rewrite !lookup_delete_ne. }
  exists fips, dates. split; [done|]. split; [done|].
  rewrite length_zip_with.
  by rewrite (traverse_length _ _ _ Hfs), (traverse_length _ _ _ Hds).
Qed.

Lemma load_uniquely_keyed_witness :
  NoDup (long_index gappy_long) ∧
  long_columns gappy_long !! "FIPS" = None.
Proof.
  destruct (load_uniquely_keyed
              (<["FIPS" := [Int64 1003; Int64 1001; Int64 1001]]>
                 (<["Date" := [Int64 18629; Int64 18629; Int64 18628]]>
                    (long_columns gappy_long)))
              gappy_long) as (Hnd & Hf & _).
  - vm_compute. reflexivity.
  - split; [exact Hnd|exact Hf].
Defined.



(** * Casting, further *)

Lemma cell_cast_outliers_steps : cell_cast_outliers = for_each outlier_columns cast_step.
Proof. reflexivity. Qed.

Lemma wrap_wrap bits z : (0 < bits)%Z → wrap bits (wrap bits z) = wrap bits z.
Proof.
  intros Hb. apply wrap_in_range; [done|]. unfold wrap.
  assert (2 ^ bits = 2 * 2 ^ (bits - 1))%Z as Hp.
  { rewrite <- Z.pow_succ_r by lia. f_equal. lia. }
  pose proof (Z.mod_pos_bound (z + 2 ^ (bits - 1)) (2 ^ bits)) as Hm.
  assert (0 < 2 ^ (bits - 1))%Z by (apply Z.pow_pos_nonneg; lia). lia.
Qed.

Lemma traverse_astype_int8 xs ys :
  traverse astype_int8 xs = Ok ys ↔ Forall integral xs ∧ ys = as_int8 <$> xs.
Proof.
  revert ys. induction xs as [|x xs IH]; intros ys; simpl.
  - split; [by intros [= <-]|by intros [_ ->]].
  - split.
    + destruct (astype_int8 x) as [y|] eqn:Hy; simpl; [|done].
      destruct (traverse astype_int8 xs) as [zs|] eqn:Hzs; simpl; [|done].
      intros [= <-]. destruct (proj1 (IH zs) eq_refl) as [Hall ->].
      destruct x; simplify_eq/=; by split; [constructor|].
    + intros [[Hx Hxs]%Forall_cons ->].
      rewrite (proj2 (IH (as_int8 <$> xs))) by done.
      by destruct x.
Qed.

Lemma as_int8_idemp x : as_int8 (as_int8 x) = as_int8 x.
Proof. unfold as_int8. simpl. by rewrite wrap_wrap. Qed.

(** One round of the loop, exactly. *)
Lemma cast_step_inv col s s' :
  cast_step col s = Ok (tt, s') →
  ∃ l lt xs, globals s !! "cases_vertical" = Some l ∧
    heap s !! l = Some (LongObj lt) ∧ long_columns lt !! col = Some xs ∧
    Forall integral xs ∧
    s' = mkStore (<[l := LongObj (mkLong (long_index lt)
                                    (<[col := as_int8 <$> xs]> (long_columns lt)))]>
                    (heap s)) (globals s).
Proof.
  unfold cast_step.
  intros (l & Hl & (lt & Hlt & (xs & Hxs & (ys & Hys & H)%lift_inv)%lift_inv)%long_at_inv)%var_inv.
  rewrite (run_var _ _ _ _ Hl), (run_long_at _ _ _ _ Hlt) in H.
  injection H as <-. apply traverse_astype_int8 in Hys as [Hall ->].
  destruct (long_columns lt !! col) as [xs'|] eqn:Hcol; [|done].
  injection Hxs as ->. by exists l, lt, xs.
Qed.

Lemma cast_step_run col s l lt xs :
  globals s !! "cases_vertical" = Some l → heap s !! l = Some (LongObj lt) →
  long_columns lt !! col = Some xs → Forall integral xs →
  cast_step col s
  = Ok (tt, mkStore (<[l := LongObj (mkLong (long_index lt)
                                       (<[col := as_int8 <$> xs]> (long_columns lt)))]>
                       (heap s)) (globals s)).
Proof.
  intros Hl Hlt Hxs Hall. unfold cast_step.
  rewrite (run_var _ _ _ _ Hl), (run_long_at _ _ _ _ Hlt), Hxs. simpl lookup_or.
  rewrite run_lift, run_lift.
  rewrite (proj2 (traverse_astype_int8 xs (as_int8 <$> xs))) by done.
  by rewrite (run_var _ _ _ _ Hl), (run_long_at _ _ _ _ Hlt).
Qed.

(** The three rounds together. *)
Lemma cast_outliers_inv s s' :
  cell_cast_outliers s = Ok (tt, s') →
  ∃ l lt x1 x2 x3, globals s !! "cases_vertical" = Some l ∧
    heap s !! l = Some (LongObj lt) ∧
    long_columns lt !! "Confirmed_Outlier" = Some x1 ∧
    long_columns lt !! "Deaths_Outlier" = Some x2 ∧
    long_columns lt !! "Recovered_Outlier" = Some x3 ∧
    Forall integral x1 ∧ Forall integral x2 ∧ Forall integral x3 ∧
    s' = mkStore
           (<[l := LongObj (mkLong (long_index lt)
                    (<["Recovered_Outlier" := as_int8 <$> x3]>
                       (<["Deaths_Outlier" := as_int8 <$> x2]>
                          (<["Confirmed_Outlier" := as_int8 <$> x1]> (long_columns lt)))))]>
              (heap s)) (globals s).
Proof.
  rewrite cell_cast_outliers_steps. unfold outlier_columns. cbn [for_each].
  intros ([] & s1 & H1 & ([] & s2 & H2 & ([] & s3 & H3 & H4)%seq_inv)%seq_inv)%seq_inv.
  injection H4 as <-.
  apply cast_step_inv in H1 as (l & lt & x1 & Hl & Hlt & Hx1 & Ha1 & ->).
  apply cast_step_inv in H2 as (l2 & lt2 & x2 & Hl2 & Hlt2 & Hx2 & Ha2 & ->).
  cbn [heap globals] in *. rewrite Hl in Hl2. injection Hl2 as <-.
  rewrite list_lookup_insert_eq in Hlt2 by (by eapply lookup_lt_Some).
  injection Hlt2 as <-. cbn [long_columns long_index] in *.
  rewrite lookup_insert_ne in Hx2 by done.
  apply cast_step_inv in H3 as (l3 & lt3 & x3 & Hl3 & Hlt3 & Hx3 & Ha3 & ->).
  cbn [heap globals] in *. rewrite Hl in Hl3. injection Hl3 as <-.
  rewrite list_insert_insert_eq in *.
  rewrite list_lookup_insert_eq in Hlt3 by (by eapply lookup_lt_Some).
  injection Hlt3 as <-. cbn [long_columns long_index] in *.
  rewrite !lookup_insert_ne in Hx3 by done.
  exists l, lt, x1, x2, x3. repeat (split; [done|]).
  by rewrite list_insert_insert_eq.
Qed.

(** X3.  On a long table whose three outlier columns hold booleans or
    integers the casting cell returns, and each of these columns then
    holds, row by row, the [int8] of the old element: 1 for [True], 0
    for [False], an integer wrapped to eight bits.  The index is the
    same. *)
Theorem cast_outliers_values s lt :
  long_of s "cases_vertical" = Some lt →
  (∀ col, col ∈ outlier_columns →
     ∃ xs, long_columns lt !! col = Some xs ∧ Forall integral xs) →
  ∃ s' lt', cell_cast_outliers s = Ok (tt, s') ∧
    long_of s' "cases_vertical" = Some lt' ∧
    long_index lt' = long_index lt ∧
    ∀ col, col ∈ outlier_columns →
      ∃ xs, long_columns lt !! col = Some xs ∧
            long_columns lt' !! col = Some (as_int8 <$> xs) ∧
            ∀ i b, xs !! i = Some (Bool b) →
                   (as_int8 <$> xs) !! i = Some (Int8 (if b then 1 else 0)).
Proof.
  intros Hlong Hcols.
  assert (∃ l, globals s !! "cases_vertical" = Some l ∧ heap s !! l = Some (LongObj lt))
    as (l & Hl & Hlt).
  { unfold long_of in Hlong. destruct (globals s !! "cases_vertical") as [l|]; [|done].
    simpl in Hlong. destruct (heap s !! l) as [[]|] eqn:Hh; try done.
    injection Hlong as <-. eauto. }
  destruct (Hcols "Confirmed_Outlier") as (x1 & H1 & A1); [by apply (bool_decide_unpack _)|].
  destruct (Hcols "Deaths_Outlier") as (x2 & H2 & A2); [by apply (bool_decide_unpack _)|].
  destruct (Hcols "Recovered_Outlier") as (x3 & H3 & A3); [by apply (bool_decide_unpack _)|].
  pose proof (lookup_lt_Some _ _ _ Hlt) as Hlen.
  set (lt1 := mkLong (long_index lt)
                (<["Confirmed_Outlier" := as_int8 <$> x1]> (long_columns lt))).
  set (s1 := mkStore (<[l := LongObj lt1]> (heap s)) (globals s)).
  set (lt2 := mkLong (long_index lt1)
                (<["Deaths_Outlier" := as_int8 <$> x2]> (long_columns lt1))).
  set (s2 := mkStore (<[l := LongObj lt2]> (heap s1)) (globals s1)).
  set (lt3 := mkLong (long_index lt2)
                (<["Recovered_Outlier" := as_int8 <$> x3]> (long_columns lt2))).
  set (s3 := mkStore (<[l := LongObj lt3]> (heap s2)) (globals s2)).
  assert (cast_step "Confirmed_Outlier" s = Ok (tt, s1)) as E1
    by exact (cast_step_run _ s l lt x1 Hl Hlt H1 A1).
  assert (cast_step "Deaths_Outlier" s1 = Ok (tt, s2)) as E2.
  { apply (cast_step_run _ s1 l lt1 x2); [done| | |done].
    - unfold s1. cbn [heap]. by apply list_lookup_insert_eq.
    - unfold lt1. cbn [long_columns]. by rewrite lookup_insert_ne. }
  assert (cast_step "Recovered_Outlier" s2 = Ok (tt, s3)) as E3.
  { apply (cast_step_run _ s2 l lt2 x3); [done| | |done].
    - unfold s2, s1. cbn [heap]. apply list_lookup_insert_eq. by rewrite length_insert.
    - unfold lt2, lt1. cbn [long_columns]. by rewrite !lookup_insert_ne. }
  rewrite cell_cast_outliers_steps. unfold outlier_columns. cbn [for_each].
  rewrite run_bind, E1, run_bind, E2, run_bind, E3.
  exists s3, lt3. split; [reflexivity|]. split; [|split; [done|]].
  - unfold long_of, s3, s2, s1. cbn [globals heap]. rewrite Hl. simpl.
    rewrite list_lookup_insert_eq by (by rewrite !length_insert). done.
  - assert (∀ (xs : list scalar) i b, xs !! i = Some (Bool b) →
              (as_int8 <$> xs) !! i = Some (Int8 (if b then 1 else 0))) as Hbool.
    { intros xs i b Hi. rewrite list_lookup_fmap, Hi. by destruct b. }
    intros col Hcol. unfold outlier_columns in Hcol.
    repeat (apply elem_of_cons in Hcol as [->|Hcol]); [..|by apply elem_of_nil in Hcol].
    + exists x1. split; [done|]. split; [|by apply Hbool].
      unfold lt3, lt2, lt1. cbn [long_columns]. rewrite 2!lookup_insert_ne by done. apply lookup_insert_eq.
    + exists x2. split; [done|]. split; [|by apply Hbool].
      unfold lt3, lt2, lt1. cbn [long_columns]. rewrite lookup_insert_ne by done. apply lookup_insert_eq.
    + exists x3. split; [done|]. split; [|by apply Hbool].
      unfold lt3, lt2, lt1. cbn [long_columns]. apply lookup_insert_eq.
Qed.

Lemma example_outliers_integral col :
  col ∈ outlier_columns →
  ∃ xs, long_columns
          (default (mkLong [] ∅) (long_of (store_after [Load example_raw]) "cases_vertical"))
          !! col = Some xs ∧ Forall integral xs.
Proof.
  intros Hcol. unfold outlier_columns in Hcol.
  repeat (apply elem_of_cons in Hcol as [->|Hcol]); [..|by apply elem_of_nil in Hcol];
    (eexists; split; [vm_compute; reflexivity|by repeat constructor]).
Qed.

Lemma cast_outliers_values_witness :
  ∃ s' lt', cell_cast_outliers (store_after [Load example_raw]) = Ok (tt, s') ∧
    long_of s' "cases_vertical" = Some lt' ∧
    long_index lt'
    = long_index (default (mkLong [] ∅)
                    (long_of (store_after [Load example_raw]) "cases_vertical")) ∧
    ∀ col, col ∈ outlier_columns →
      ∃ xs, long_columns
              (default (mkLong [] ∅)
                 (long_of (store_after [Load example_raw]) "cases_vertical"))
              !! col = Some xs ∧
            long_columns lt' !! col = Some (as_int8 <$> xs) ∧
            ∀ i b, xs !! i = Some (Bool b) →
                   (as_int8 <$> xs) !! i = Some (Int8 (if b then 1 else 0)).
Proof.
  apply (cast_outliers_values (store_after [Load example_raw])).
  - vm_compute. reflexivity.
  - exact example_outliers_integral.
Defined.

Lemma integral_as_int8 (xs : list scalar) : Forall integral (as_int8 <$> xs).
Proof. apply Forall_fmap, Forall_forall. by intros x _. Qed.

Lemma as_int8_fmap_idemp (xs : list scalar) :
  as_int8 <$> (as_int8 <$> xs) = as_int8 <$> xs.
Proof.
  rewrite <- list_fmap_compose. apply list_fmap_ext. intros _ x _. apply as_int8_idemp.
Qed.

(** A round over a column that is cast already changes nothing. *)
Lemma cast_step_fixed col s l lt (xs : list scalar) :
  globals s !! "cases_vertical" = Some l → heap s !! l = Some (LongObj lt) →
  long_columns lt !! col = Some (as_int8 <$> xs) →
  cast_step col s = Ok (tt, s).
Proof.
  intros Hl Hlt Hcol.
  rewrite (cast_step_run col s l lt (as_int8 <$> xs) Hl Hlt Hcol (integral_as_int8 xs)).
  rewrite as_int8_fmap_idemp, insert_id by done.
  destruct lt as [idx cols]. simpl.
  rewrite list_insert_id by done. by rewrite store_eta.
Qed.

(** X4.  Running the casting cell a second time changes nothing: on the
    store it left behind it returns again and leaves that store as it
    is. *)
Theorem cast_outliers_idempotent s s' :
  cell_cast_outliers s = Ok (tt, s') → cell_cast_outliers s' = Ok (tt, s').
Proof.
  intros (l & lt & x1 & x2 & x3 & Hl & Hlt & H1 & H2 & H3 & A1 & A2 & A3 & ->)%cast_outliers_inv.
  set (lt' := mkLong (long_index lt) _).
  set (s' := mkStore _ _).
  assert (globals s' !! "cases_vertical" = Some l) as Hl' by done.
  assert (heap s' !! l = Some (LongObj lt')) as Hlt'.
  { unfold s'. cbn [heap]. apply list_lookup_insert_eq. by eapply lookup_lt_Some. }
  rewrite cell_cast_outliers_steps. unfold outlier_columns. cbn [for_each].
  rewrite run_bind, (cast_step_fixed "Confirmed_Outlier" s' l lt' x1 Hl' Hlt').
  2:{ unfold lt'. cbn [long_columns]. rewrite 2!lookup_insert_ne by done.
      apply lookup_insert_eq. }
  rewrite run_bind, (cast_step_fixed "Deaths_Outlier" s' l lt' x2 Hl' Hlt').
  2:{ unfold lt'. cbn [long_columns]. rewrite lookup_insert_ne by done.
      apply lookup_insert_eq. }
  rewrite run_bind, (cast_step_fixed "Recovered_Outlier" s' l lt' x3 Hl' Hlt').
  2:{ unfold lt'. cbn [long_columns]. by rewrite lookup_insert_eq. }
  done.
Qed.

Lemma cast_outliers_idempotent_witness :
  cell_cast_outliers (store_after [Load example_raw; CastOutliers])
  = Ok (tt, store_after [Load example_raw; CastOutliers]).
Proof.
  apply (cast_outliers_idempotent (store_after [Load example_raw])).
  vm_compute. reflexivity.
Defined.

(** * Per-capita values, further *)

Lemma divide_rows_same_length rows : ∀ pops q,
  divide_rows rows pops = Ok q → length rows = length pops.
Proof.
  induction rows as [|row rows IH]; intros [|p pops] q; simpl; try done.
  destruct (traverse _ row); simpl; [|done].
  destruct (divide_rows rows pops) eqn:Hq; simpl; [|done].
  intros _. f_equal. by eapply IH.
Qed.

Lemma true_divide_is_float x p y : np_true_divide x p = Ok y → ∃ f, y = Float64 f.
Proof.
  unfold np_true_divide. destruct (to_f64 x); simpl; [|done].
  destruct (to_f64 p); simpl; [|done]. intros [= <-]. eauto.
Qed.

(** What a returning per-capita transform went through. *)
Lemma per_100_inv df col c :
  per_100 df col = Ok c →
  ∃ m rows pops scaled q,
    columns df !! col = Some (TensorArray m rows) ∧
    columns df !! "Population" = Some (Series pops) ∧
    traverse (traverse (np_multiply_float F64.hundred)) rows = Ok scaled ∧
    divide_rows scaled pops = Ok q ∧ c = TensorArray m q.
Proof.
  unfold per_100, getitem.
  destruct (columns df !! col) as [[xs|m rows]|] eqn:Hcol; simpl; try done.
  destruct (traverse _ rows) as [scaled|] eqn:Hs; simpl; [|done].
  destruct (columns df !! "Population") as [[pops|]|] eqn:Hp; simpl; try done.
  destruct (divide_rows scaled pops) as [q|] eqn:Hq; simpl; [|done].
  intros [= <-]. by exists m, rows, pops, scaled, q.
Qed.

(** The transform reads two columns only. *)
Lemma per_100_ext df df' col :
  columns df' !! col = columns df !! col →
  columns df' !! "Population" = columns df !! "Population" →
  per_100 df' col = per_100 df col.
Proof. intros H1 H2. unfold per_100, getitem. by rewrite H1, H2. Qed.

(** X5.  On a tensor column, whenever the per-capita transform returns,
    its result is a tensor of the shape of the count column (as many
    rows, each row as long as the count row) all of whose elements are
    [float64]. *)
Theorem per_100_shape df col m rows c :
  columns df !! col = Some (TensorArray m rows) →
  per_100 df col = Ok c →
  ∃ q, c = TensorArray m q ∧
    Forall2 (λ row qrow, length qrow = length row) rows q ∧
    Forall (Forall (λ y, ∃ f, y = Float64 f)) q.
Proof.
  intros Hcol0 (m' & rows' & pops & scaled & q & Hcol & Hpop & Hs & Hq & ->)%per_100_inv.
  assert (m' = m) as -> by congruence. assert (rows' = rows) as -> by congruence.
  exists q. split; [done|].
  pose proof (traverse_length _ _ _ Hs) as Hls.
  pose proof (divide_rows_length _ _ _ Hq) as Hlq.
  pose proof (divide_rows_same_length _ _ _ Hq) as Hlp.
  split.
  - apply Forall2_same_length_lookup_2; [congruence|].
    intros i row qrow Hrow Hqrow.
    destruct (traverse_lookup _ _ _ _ _ Hs Hrow) as (srow & Hsrow & Hsi).
    assert (is_Some (pops !! i)) as [p Hp].
    { apply lookup_lt_is_Some. rewrite <- Hlp. by eapply lookup_lt_Some. }
    destruct (divide_rows_lookup _ _ _ _ _ _ Hq Hsi Hp) as (qrow' & Hq' & Hdiv).
    assert (qrow' = qrow) as -> by congruence.
    apply traverse_length in Hsrow, Hdiv. congruence.
  - apply Forall_lookup. intros i qrow Hqrow.
    assert (is_Some (scaled !! i)) as [srow Hsi].
    { apply lookup_lt_is_Some. rewrite <- Hlq. by eapply lookup_lt_Some. }
    assert (is_Some (pops !! i)) as [p Hp].
    { apply lookup_lt_is_Some. rewrite <- Hlp. by eapply lookup_lt_Some. }
    destruct (divide_rows_lookup _ _ _ _ _ _ Hq Hsi Hp) as (qrow' & Hq' & Hdiv).
    assert (qrow' = qrow) as -> by congruence.
    apply Forall_forall. intros y Hy.
    destruct (traverse_elem_of _ _ _ _ Hdiv Hy) as (x & _ & Hx).
    by eapply true_divide_is_float.
Qed.

Lemma per_100_shape_witness :
  ∃ q, TensorArray 3 [[Float64 (S754_infinity false); NaN; NaN]] = TensorArray 3 q ∧
    Forall2 (λ row qrow, length qrow = length row)
      [[Int64 5; Int64 0; Float64 F64.nan]] q ∧
    Forall (Forall (λ y, ∃ f, y = Float64 f)) q.
Proof.
  apply (per_100_shape zero_population_frame "Confirmed").
  - vm_compute. reflexivity.
  - vm_compute. reflexivity.
Defined.

(** X6.  Gaps stay gaps: where the count is not-a-number, so is the
    per-capita value, whatever the population of the row. *)
Theorem per_100_keeps_gaps df col m rows q r i x :
  columns df !! col = Some (TensorArray m rows) →
  per_100 df col = Ok (TensorArray m q) →
  element rows r i = Some x → isna x = true →
  ∃ y, element q r i = Some y ∧ isna y = true.
Proof.
  intros Hcol (m' & rows' & pops & scaled & q' & Hcol' & Hpop & Hs & Hq & Hc)%per_100_inv
         Hx Hna.
  assert (rows' = rows) as -> by congruence.
  assert (q' = q) as -> by congruence.
  unfold element in Hx. destruct (rows !! r) as [row|] eqn:Hrow; [|done]. simpl in Hx.
  destruct (traverse_lookup _ _ _ _ _ Hs Hrow) as (srow & Hsrow & Hsr).
  destruct (traverse_lookup _ _ _ _ _ Hsrow Hx) as (sx & Hsx & Hsi).
  assert (is_Some (pops !! r)) as [p Hp].
  { apply lookup_lt_is_Some. rewrite <- (divide_rows_same_length _ _ _ Hq).
    by eapply lookup_lt_Some. }
  destruct (divide_rows_lookup _ _ _ _ _ _ Hq Hsr Hp) as (qrow & Hqr & Hdiv).
  destruct (traverse_lookup _ _ _ _ _ Hdiv Hsi) as (y & Hy & Hqi).
  exists y. split; [unfold element; by rewrite Hqr|].
  destruct x as [| | |[]|]; try done. simpl in Hsx. injection Hsx as <-.
  unfold np_true_divide in Hy. simpl in Hy.
  destruct (to_f64 p); simpl in Hy; [|done]. by injection Hy as <-.
Qed.

Lemma per_100_keeps_gaps_witness :
  ∃ y, element [[Float64 (S754_infinity false); NaN; NaN]] 0 2 = Some y ∧
       isna y = true.
Proof.
  apply (per_100_keeps_gaps zero_population_frame "Confirmed" 3
           [[Int64 5; Int64 0; Float64 F64.nan]] _ 0%nat 2%nat (Float64 F64.nan)).
  - vm_compute. reflexivity.
  - vm_compute. reflexivity.
  - reflexivity.
  - reflexivity.
Defined.

(** One per-capita assignment, exactly. *)
Lemma assign_per_100_inv target source s s' :
  assign_per_100 target source s = Ok (tt, s') →
  ∃ l df c, globals s !! "cases" = Some l ∧ heap s !! l = Some (FrameObj df) ∧
    per_100 df source = Ok c ∧ column_length c = length (index df) ∧
    s' = mkStore (<[l := FrameObj (mkFrame (index df) (<[target := c]> (columns df)))]>
                    (heap s)) (globals s).
Proof.
  unfold assign_per_100.
  intros (l & Hl & (df & Hdf & (c & Hc & Hset)%lift_inv)%frame_at_inv)%var_inv.
  rewrite (run_setitem_var _ _ _ _ _ _ Hl Hdf) in Hset.
  unfold setitem in Hset. case_decide; [|done]. injection Hset as <-.
  by exists l, df, c.
Qed.

Lemma assign_per_100_run target source s l df c :
  globals s !! "cases" = Some l → heap s !! l = Some (FrameObj df) →
  per_100 df source = Ok c → column_length c = length (index df) →
  assign_per_100 target source s
  = Ok (tt, mkStore (<[l := FrameObj (mkFrame (index df) (<[target := c]> (columns df)))]>
                       (heap s)) (globals s)).
Proof.
  intros Hl Hdf Hc Hlen. unfold assign_per_100.
  rewrite (run_var _ _ _ _ Hl), (run_frame_at _ _ _ _ Hdf), Hc, run_lift.
  rewrite (run_setitem_var _ _ _ _ _ _ Hl Hdf). unfold setitem.
  by rewrite decide_True.
Qed.

(** The per-capita cell, exactly: both new columns are computed from
    the table as it was before the cell. *)
Lemma per_capita_inv s s' :
  cell_per_capita s = Ok (tt, s') →
  ∃ l df c1 c2, globals s !! "cases" = Some l ∧ heap s !! l = Some (FrameObj df) ∧
    per_100 df "Confirmed" = Ok c1 ∧ per_100 df "Deaths" = Ok c2 ∧
    column_length c1 = length (index df) ∧ column_length c2 = length (index df) ∧
    s' = mkStore (<[l := FrameObj (mkFrame (index df)
                     (<["Deaths_per_100" := c2]>
                        (<["Confirmed_per_100" := c1]> (columns df))))]>
                    (heap s)) (globals s).
Proof.
  unfold cell_per_capita. intros ([] & s1 & H1 & H2)%seq_inv.
  apply assign_per_100_inv in H1 as (l & df & c1 & Hl & Hdf & Hc1 & Hl1 & ->).
  apply assign_per_100_inv in H2 as (l2 & df2 & c2 & Hl2 & Hdf2 & Hc2 & Hl2' & ->).
  cbn [heap globals] in *. rewrite Hl in Hl2. injection Hl2 as <-.
  rewrite list_lookup_insert_eq in Hdf2 by (by eapply lookup_lt_Some).
  injection Hdf2 as <-. cbn [index columns] in *.
  rewrite (per_100_ext df) in Hc2 by (cbn [columns]; by rewrite lookup_insert_ne).
  exists l, df, c1, c2. repeat (split; [done|]).
  by rewrite list_insert_insert_eq.
Qed.

(** X7.  Running the per-capita cell a second time changes nothing: the
    two columns it sets are computed from columns it does not set. *)
Theorem per_capita_idempotent s s' :
  cell_per_capita s = Ok (tt, s') → cell_per_capita s' = Ok (tt, s').
Proof.
  intros (l & df & c1 & c2 & Hl & Hdf & Hc1 & Hc2 & Hl1 & Hl2 & ->)%per_capita_inv.
  set (df' := mkFrame (index df) _). set (s' := mkStore _ _).
  assert (globals s' !! "cases" = Some l) as Hl' by done.
  assert (heap s' !! l = Some (FrameObj df')) as Hdf'.
  { unfold s'. cbn [heap]. apply list_lookup_insert_eq. by eapply lookup_lt_Some. }
  assert (mkStore (<[l := FrameObj df']> (heap s')) (globals s') = s') as Hfix.
  { rewrite list_insert_id by done. apply store_eta. }
  unfold cell_per_capita. rewrite run_bind.
  rewrite (assign_per_100_run _ "Confirmed" s' l df' c1 Hl' Hdf'); [| |done].
  2:{ rewrite (per_100_ext df); [done|unfold df'; cbn [columns];
        by rewrite !lookup_insert_ne..]. }
  replace (<["Confirmed_per_100" := c1]> (columns df')) with (columns df').
  2:{ symmetry. apply insert_id. unfold df'. cbn [columns].
      rewrite lookup_insert_ne by done. apply lookup_insert_eq. }
  change (mkFrame (index df') (columns df')) with df'. rewrite Hfix.
  rewrite (assign_per_100_run _ "Deaths" s' l df' c2 Hl' Hdf'); [| |done].
  2:{ rewrite (per_100_ext df); [done|unfold df'; cbn [columns];
        by rewrite !lookup_insert_ne..]. }
  replace (<["Deaths_per_100" := c2]> (columns df')) with (columns df').
  2:{ symmetry. apply insert_id. unfold df'. cbn [columns]. apply lookup_insert_eq. }
  change (mkFrame (index df') (columns df')) with df'. by rewrite Hfix.
Qed.

Lemma per_capita_idempotent_witness :
  cell_per_capita (store_after example_cells) = Ok (tt, store_after example_cells).
Proof.
  apply (per_capita_idempotent (store_after [Load example_raw; CastOutliers; Collapse])).
  vm_compute. reflexivity.
Defined.

(** * Snapshots, further *)

Lemma named_keys {B} (g : string → result B) names : ∀ kvs,
  traverse (λ c, y ← g c; Ok (c, y)) names = Ok kvs → kvs.*1 = names.
Proof.
  induction names as [|n names IH]; intros kvs; simpl.
  - by intros [= <-].
  - destruct (g n) as [y|]; simpl; [|done].
    destruct (traverse _ names) as [kvs'|] eqn:Hkvs; simpl; [|done].
    intros [= <-]. simpl. f_equal. by apply IH.
Qed.

(** [df[[cols]]] returns exactly when every listed column is there, and
    then holds the listed columns and no other. *)
Lemma select_inv df cols sel :
  select df cols = Ok sel →
  index sel = index df ∧
  (∀ col, col ∈ cols → is_Some (columns df !! col) ∧
                        columns sel !! col = columns df !! col) ∧
  (∀ col, col ∉ cols → columns sel !! col = None).
Proof.
  unfold select.
  destruct (traverse _ cols) as [kvs|] eqn:Hkvs; simpl; [|done].
  intros [= <-]. simpl. split; [done|]. split.
  - intros col Hcol.
    destruct (named_lookup (getitem df) cols kvs col Hkvs Hcol) as (c & Hc & Hl).
    unfold getitem in Hc. destruct (columns df !! col) as [c'|]; [|done].
    simpl in Hc. injection Hc as ->. by rewrite Hl.
  - intros col Hcol. apply not_elem_of_list_to_map_1.
    by rewrite (named_keys (getitem df) cols kvs Hkvs).
Qed.

Lemma fill_inv slice wide cols : NoDup cols → ∀ snap0 snap,
  fill slice wide cols snap0 = Ok snap →
  index snap = index snap0 ∧
  (∀ col, col ∈ cols →
     ∃ c v, columns wide !! col = Some c ∧ slice c = Ok v ∧
            column_length v = length (index snap0) ∧
            columns snap !! col = Some v) ∧
  (∀ col, col ∉ cols → columns snap !! col = columns snap0 !! col).
Proof.
  induction 1 as [|col cols Hnotin Hnd IH]; intros snap0 snap; simpl.
  - intros [= <-]. split; [done|]. split; [|done].
    intros col Hcol. by apply elem_of_nil in Hcol.
  - unfold getitem. destruct (columns wide !! col) as [c|] eqn:Hc; simpl; [|done].
    destruct (slice c) as [v|] eqn:Hv; simpl; [|done].
    unfold setitem. case_decide as Hlen; simpl; [|done].
    intros (Hidx & Hin & Hout)%IH. simpl in *.
    split; [done|]. split.
    + intros col' [->|Hcol']%elem_of_cons.
      * exists c, v. repeat (split; [done|]).
        rewrite Hout by done. apply lookup_insert_eq.
      * by apply Hin.
    + intros col' [Hne Hcol']%not_elem_of_cons.
      rewrite Hout by done. by apply lookup_insert_ne.
Qed.

(** A returning slicing cell, exactly. *)
Lemma derive_snapshot_inv name slice s s' :
  name ≠ "cases" → derive_snapshot name slice s = Ok (tt, s') →
  ∃ lc wide sel snap, globals s !! "cases" = Some lc ∧
    heap s !! lc = Some (FrameObj wide) ∧
    select wide static_columns = Ok sel ∧
    fill slice wide metric_columns sel = Ok snap ∧
    s' = mkStore (heap s ++ [FrameObj sel; FrameObj snap])
                 (<[name := S (length (heap s))]> (globals s)).
Proof.
  intros Hname H. pose proof H as H'.
  unfold derive_snapshot, select_copy in H'. rewrite !run_assoc in H'.
  apply var_inv in H' as (lc & Hc & H'). rewrite !run_assoc in H'.
  apply frame_at_inv in H' as (wide & Hlc & _).
  rewrite (derive_snapshot_run name slice s lc wide Hname Hc Hlc) in H.
  destruct (select wide static_columns) as [sel|] eqn:Hsel; [|done].
  rewrite bind_Ok in H.
  destruct (fill slice wide metric_columns sel) as [snap|] eqn:Hfill; [|done].
  rewrite bind_Ok in H. injection H as <-.
  by exists lc, wide, sel, snap.
Qed.

Lemma snapshot_cell_run c name slice :
  snapshot_cell c = Some (name, slice) →
  name ≠ "cases" ∧ run c = derive_snapshot name slice ∧
  ∀ x v, slice x = Ok v → ∃ xs, v = Series xs.
Proof.
  destruct c; simpl; intros [= <- <-]; (split; [done|]); (split; [done|]);
    intros x v; unfold last_value, week_delta.
  - destruct (tensor_from_end 1 x); simpl; [|done]. intros [= <-]. eauto.
  - destruct (tensor_from_end 1 x); simpl; [|done].
    destruct (tensor_from_end 8 x); simpl; [|done].
    destruct (subtract_arrays _ _); simpl; [|done]. intros [= <-]. eauto.
Qed.

Lemma frame_of_inv s name df :
  frame_of s name = Some df →
  ∃ l, globals s !! name = Some l ∧ heap s !! l = Some (FrameObj df).
Proof.
  unfold frame_of. destruct (globals s !! name) as [l|]; simpl; [|done].
  destruct (heap s !! l) as [[]|] eqn:Hl; simpl; try done.
  intros [= <-]. eauto.
Qed.

Lemma frame_of_new s os name df :
  frame_of (mkStore (heap s ++ [os; FrameObj df])
              (<[name := S (length (heap s))]> (globals s))) name = Some df.
Proof.
  unfold frame_of. cbn [globals heap]. rewrite lookup_insert_eq. simpl.
  rewrite lookup_app_r by lia.
  by replace (S (length (heap s)) - length (heap s))%nat with 1%nat by lia.
Qed.

(** The table a slicing cell binds. *)
Lemma snapshot_table c name slice s s' wide :
  snapshot_cell c = Some (name, slice) →
  run c s = Ok (tt, s') → frame_of s "cases" = Some wide →
  ∃ snap, frame_of s' name = Some snap ∧ index snap = index wide ∧
    (∀ col, col ∈ static_columns →
       is_Some (columns wide !! col) ∧ columns snap !! col = columns wide !! col) ∧
    (∀ col, col ∈ metric_columns →
       ∃ xs, columns snap !! col = Some (Series xs) ∧
             length xs = length (index wide)) ∧
    (∀ col, col ∉ static_columns → col ∉ metric_columns →
       columns snap !! col = None) ∧
    (frame_ok wide → frame_ok snap).
Proof.
  intros (Hname & -> & Hseries)%snapshot_cell_run H (l & Hl & Hwide)%frame_of_inv.
  apply derive_snapshot_inv in H as (lc & wide' & sel & snap & Hc & Hlc & Hsel & Hfill & ->);
    [|done].
  assert (wide' = wide) as -> by congruence.
  apply select_inv in Hsel as (Hsi & Hsin & Hsout).
  apply fill_inv in Hfill as (Hfi & Hfin & Hfout); [|apply metric_columns_NoDup].
  assert (∀ col, col ∈ static_columns → col ∉ metric_columns) as Hdisj.
  { intros col Hcol Hcol'. unfold static_columns, metric_columns in *.
    repeat (apply elem_of_cons in Hcol as [->|Hcol]);
      [..|by apply elem_of_nil in Hcol];
      repeat (apply elem_of_cons in Hcol' as [?|Hcol']); try done;
      by apply elem_of_nil in Hcol'. }
  assert (∀ col, col ∈ metric_columns →
            ∃ xs, columns snap !! col = Some (Series xs) ∧
                  length xs = length (index wide)) as Hmetric.
  { intros col Hcol. destruct (Hfin col Hcol) as (x & v & _ & Hv & Hlen & Hsnap).
    destruct (Hseries x v Hv) as [xs ->]. exists xs. split; [done|].
    simpl in Hlen. congruence. }
  exists snap. split; [apply frame_of_new|]. split; [congruence|].
  split; [|split; [done|split]].
  - intros col Hcol. destruct (Hsin col Hcol) as [Hsome Heq].
    split; [done|]. by rewrite Hfout, Heq by auto.
  - intros col Hs Hm. rewrite Hfout by done. by apply Hsout.
  - intros Hok col x Hx. rewrite Hfi, Hsi.
    destruct (decide (col ∈ metric_columns)) as [Hm|Hm].
    + destruct (Hmetric col Hm) as (xs & Hxs & Hlen).
      rewrite Hxs in Hx. by injection Hx as <-.
    + rewrite Hfout in Hx by done.
      destruct (decide (col ∈ static_columns)) as [Hst|Hst].
      * destruct (Hsin col Hst) as [_ Heq]. rewrite Heq in Hx. by eapply Hok.
      * by rewrite Hsout in Hx.
Qed.

(** Each sliced column of the table a slicing cell binds is the slice
    of the column of the wide table. *)
Lemma snapshot_values c name slice s s' wide snap col :
  snapshot_cell c = Some (name, slice) →
  run c s = Ok (tt, s') → frame_of s "cases" = Some wide →
  frame_of s' name = Some snap → col ∈ metric_columns →
  ∃ x v, columns wide !! col = Some x ∧ slice x = Ok v ∧
         columns snap !! col = Some v.
Proof.
  intros (Hname & -> & _)%snapshot_cell_run H (l & Hl & Hwide)%frame_of_inv Hsnap Hcol.
  apply derive_snapshot_inv in H as (lc & wide' & sel & snap' & Hc & Hlc & _ & Hfill & ->);
    [|done].
  assert (wide' = wide) as -> by congruence.
  rewrite frame_of_new in Hsnap. injection Hsnap as ->.
  apply fill_inv in Hfill as (_ & Hfin & _); [|apply metric_columns_NoDup].
  destruct (Hfin col Hcol) as (x & v & Hx & Hv & _ & Hs). eauto.
Qed.

(** X8.  The table a slicing cell binds has the index of the wide
    table, the three carried-over columns as they are in the wide
    table, the four sliced columns as series with one scalar per
    location, and no other column: none of the tensors is carried over.
    If every column of the wide table has one entry per location, so
    has every column of the snapshot. *)
Theorem snapshot_columns c name slice s s' wide :
  snapshot_cell c = Some (name, slice) →
  run c s = Ok (tt, s') → frame_of s "cases" = Some wide →
  ∃ snap, frame_of s' name = Some snap ∧ index snap = index wide ∧
    (∀ col, col ∈ static_columns →
       is_Some (columns wide !! col) ∧ columns snap !! col = columns wide !! col) ∧
    (∀ col, col ∈ metric_columns →
       ∃ xs, columns snap !! col = Some (Series xs) ∧
             length xs = length (index wide)) ∧
    (∀ col, col ∉ static_columns → col ∉ metric_columns →
       columns snap !! col = None) ∧
    (frame_ok wide → frame_ok snap).
Proof. apply snapshot_table. Qed.

Lemma snapshot_columns_witness :
  ∃ snap, frame_of (store_after (example_cells ++ [LatestCases])) "latest_cases"
            = Some snap ∧
    index snap = index (wide_after example_cells) ∧
    (∀ col, col ∈ static_columns →
       is_Some (columns (wide_after example_cells) !! col) ∧
       columns snap !! col = columns (wide_after example_cells) !! col) ∧
    (∀ col, col ∈ metric_columns →
       ∃ xs, columns snap !! col = Some (Series xs) ∧
             length xs = length (index (wide_after example_cells))) ∧
    (∀ col, col ∉ static_columns → col ∉ metric_columns →
       columns snap !! col = None) ∧
    (frame_ok (wide_after example_cells) → frame_ok snap).
Proof.
  apply (snapshot_columns LatestCases "latest_cases" last_value
           (store_after example_cells)).
  - reflexivity.
  - vm_compute. reflexivity.
  - vm_compute. reflexivity.
Defined.

(** X9.  Running a slicing cell again gives the same table: the cell
    returns again, binds its name to a table equal to the one bound
    before, and leaves every existing object, the earlier snapshot
    included, as it is. *)
Theorem snapshot_rerun c name slice s s1 :
  snapshot_cell c = Some (name, slice) → run c s = Ok (tt, s1) →
  ∃ s2, run c s1 = Ok (tt, s2) ∧ frame_of s2 name = frame_of s1 name ∧
        objects_kept s1 s2.
Proof.
  intros (Hname & -> & _)%snapshot_cell_run
         (lc & wide & sel & snap & Hc & Hlc & Hsel & Hfill & ->)%derive_snapshot_inv;
    [|done].
  eexists. split; [|split].
  - rewrite (derive_snapshot_run name slice _ lc wide Hname).
    + by rewrite Hsel, bind_Ok, Hfill, bind_Ok.
    + cbn [globals]. by rewrite lookup_insert_ne.
    + cbn [heap]. by apply lookup_app_l_Some.
  - by rewrite !frame_of_new.
  - apply objects_kept_app.
Qed.

Lemma snapshot_rerun_witness :
  ∃ s2, run CasesThisWeek (store_after (example_cells ++ [CasesThisWeek])) = Ok (tt, s2) ∧
        frame_of s2 "cases_this_week"
          = frame_of (store_after (example_cells ++ [CasesThisWeek])) "cases_this_week" ∧
        objects_kept (store_after (example_cells ++ [CasesThisWeek])) s2.
Proof.
  apply (snapshot_rerun CasesThisWeek "cases_this_week" week_delta
           (store_after example_cells)).
  - reflexivity.
  - vm_compute. reflexivity.
Defined.

(** A column assignment through one name leaves the frame behind
    another reference as it is. *)
Lemma setitem_var_elsewhere name other col c s s' l l' :
  globals s !! name = Some l → globals s !! other = Some l' → l ≠ l' →
  setitem_var name col c s = Ok (tt, s') →
  frame_of s' other = frame_of s other.
Proof.
  intros Hl Hl' Hne Hset. unfold setitem_var in Hset.
  rewrite (run_var _ _ _ _ Hl) in Hset.
  destruct (heap s !! l) as [[| df | |]|] eqn:Hheap;
    try (unfold frame_at in Hset; rewrite !run_bind in Hset; unfold deref in Hset;
         rewrite Hheap in Hset; done).
  rewrite (run_frame_at _ _ _ _ Hheap), run_lift in Hset.
  destruct (setitem df col c) as [df'|]; [|done].
  injection Hset as <-. unfold frame_of. cbn [globals heap]. rewrite Hl'. simpl.
  by rewrite list_lookup_insert_ne.
Qed.

(** X10.  After the two slicing cells the names [cases], [latest_cases]
    and [cases_this_week] are bound to three different frame objects,
    so a column assignment [name[col] = c] through one of the three
    names leaves the tables the other two names are bound to as they
    are. *)
Theorem snapshots_not_aliased s s1 s2 :
  run LatestCases s = Ok (tt, s1) → run CasesThisWeek s1 = Ok (tt, s2) →
  ∃ lc ll lw wide latest week,
    globals s2 !! "cases" = Some lc ∧ heap s2 !! lc = Some (FrameObj wide) ∧
    globals s2 !! "latest_cases" = Some ll ∧ heap s2 !! ll = Some (FrameObj latest) ∧
    globals s2 !! "cases_this_week" = Some lw ∧ heap s2 !! lw = Some (FrameObj week) ∧
    lc ≠ ll ∧ lc ≠ lw ∧ ll ≠ lw ∧
    ∀ name other col c s3,
      name ∈ ["cases"; "latest_cases"; "cases_this_week"] →
      other ∈ ["cases"; "latest_cases"; "cases_this_week"] → name ≠ other →
      setitem_var name col c s2 = Ok (tt, s3) →
      frame_of s3 other = frame_of s2 other.
Proof.
  intros Hlatest Hweek.
  cut (∃ lc ll lw wide latest week,
    globals s2 !! "cases" = Some lc ∧ heap s2 !! lc = Some (FrameObj wide) ∧
    globals s2 !! "latest_cases" = Some ll ∧ heap s2 !! ll = Some (FrameObj latest) ∧
    globals s2 !! "cases_this_week" = Some lw ∧ heap s2 !! lw = Some (FrameObj week) ∧
    lc ≠ ll ∧ lc ≠ lw ∧ ll ≠ lw).
  { intros (lc & ll & lw & wide & latest & week & Hc & Hhc & Hl & Hhl & Hw & Hhw
            & Hcl & Hcw & Hlw).
    exists lc, ll, lw, wide, latest, week. repeat (split; [done|]).
    intros name other col c s3 Hname Hother Hne Hset.
    repeat (apply elem_of_cons in Hname as [->|Hname]);
      [..|by apply elem_of_nil in Hname];
      (repeat (apply elem_of_cons in Hother as [->|Hother]);
         [..|by apply elem_of_nil in Hother]); try done;
      (eapply setitem_var_elsewhere; [| | |exact Hset]; [eassumption|eassumption|];
       congruence). }
  revert Hlatest Hweek.
  simpl run. unfold cell_latest_cases, cell_cases_this_week.
  intros (lc & wide & sel & latest & Hc & Hlc & _ & _ & ->)%derive_snapshot_inv;
    [|done].
  intros (lc' & wide' & sel' & week & Hc' & Hlc' & _ & _ & ->)%derive_snapshot_inv;
    [|done].
  cbn [heap globals] in *.
  rewrite lookup_insert_ne in Hc' by done. assert (lc' = lc) as -> by congruence.
  pose proof (lookup_lt_Some _ _ _ Hlc) as Hlt.
  exists lc, (S (length (heap s))), (S (length (heap s ++ [FrameObj sel; FrameObj latest]))),
    wide, latest, week.
  rewrite !length_app. simpl length.
  split; [by rewrite !lookup_insert_ne|].
  split; [apply lookup_app_l_Some; by apply lookup_app_l_Some|].
  split; [rewrite lookup_insert_ne by done; apply lookup_insert_eq|].
  split.
  { apply lookup_app_l_Some. rewrite lookup_app_r by lia.
    by replace (S (length (heap s)) - length (heap s))%nat with 1%nat by lia. }
  split; [apply lookup_insert_eq|]. split.
  { rewrite lookup_app_r by (rewrite length_app; simpl; lia).
    rewrite length_app. simpl length.
    by replace (S (length (heap s) + 2) - (length (heap s) + 2))%nat with 1%nat by lia. }
  lia.
Qed.

Lemma snapshots_not_aliased_witness :
  ∃ lc ll lw wide latest week,
    globals (store_after (example_cells ++ [LatestCases; CasesThisWeek])) !! "cases"
      = Some lc ∧
    heap (store_after (example_cells ++ [LatestCases; CasesThisWeek])) !! lc
      = Some (FrameObj wide) ∧
    globals (store_after (example_cells ++ [LatestCases; CasesThisWeek])) !! "latest_cases"
      = Some ll ∧
    heap (store_after (example_cells ++ [LatestCases; CasesThisWeek])) !! ll
      = Some (FrameObj latest) ∧
    globals (store_after (example_cells ++ [LatestCases; CasesThisWeek])) !! "cases_this_week"
      = Some lw ∧
    heap (store_after (example_cells ++ [LatestCases; CasesThisWeek])) !! lw
      = Some (FrameObj week) ∧
    lc ≠ ll ∧ lc ≠ lw ∧ ll ≠ lw ∧
    ∀ name other col c s3,
      name ∈ ["cases"; "latest_cases"; "cases_this_week"] →
      other ∈ ["cases"; "latest_cases"; "cases_this_week"] → name ≠ other →
      setitem_var name col c
        (store_after (example_cells ++ [LatestCases; CasesThisWeek])) = Ok (tt, s3) →
      frame_of s3 other
        = frame_of (store_after (example_cells ++ [LatestCases; CasesThisWeek])) other.
Proof.
  apply (snapshots_not_aliased (store_after example_cells)
           (store_after (example_cells ++ [LatestCases]))).
  - vm_compute. reflexivity.
  - vm_compute. reflexivity.
Defined.

(** * Per-capita snapshots *)

Lemma multiply_float_inv c x y :
  np_multiply_float c x = Ok y →
  ∃ fx, to_f64 x = Ok fx ∧ y = Float64 (F64.mul c fx).
Proof. destruct x; simpl; intros [= <-]; eauto. Qed.

Lemma true_divide_inv a p y :
  np_true_divide (Float64 a) p = Ok y →
  ∃ fp, to_f64 p = Ok fp ∧ y = Float64 (F64.div a fp).
Proof.
  unfold np_true_divide. simpl. destruct (to_f64 p) as [fp|]; simpl; [|done].
  intros [= <-]. eauto.
Qed.

(** Each element of a returned per-capita tensor is the quotient the
    notebook writes. *)
Lemma per_100_element df col m rows pops q r i x p :
  columns df !! col = Some (TensorArray m rows) →
  columns df !! "Population" = Some (Series pops) →
  per_100 df col = Ok (TensorArray m q) →
  element rows r i = Some x → pops !! r = Some p →
  ∃ fx fp, to_f64 x = Ok fx ∧ to_f64 p = Ok fp ∧
    element q r i = Some (Float64 (F64.div (F64.mul F64.hundred fx) fp)).
Proof.
  intros Hcol Hpop (m' & rows' & pops' & scaled & q' & Hcol' & Hpop' & Hs & Hq & Hc)%per_100_inv
         Hx Hp.
  assert (rows' = rows) as -> by congruence.
  assert (pops' = pops) as -> by congruence.
  assert (q' = q) as -> by congruence.
  unfold element in Hx. destruct (rows !! r) as [row|] eqn:Hrow; [|done]. simpl in Hx.
  destruct (traverse_lookup _ _ _ _ _ Hs Hrow) as (srow & Hsrow & Hsr).
  destruct (traverse_lookup _ _ _ _ _ Hsrow Hx) as (sx & Hsx & Hsi).
  destruct (divide_rows_lookup _ _ _ _ _ _ Hq Hsr Hp) as (qrow & Hqr & Hdiv).
  destruct (traverse_lookup _ _ _ _ _ Hdiv Hsi) as (y & Hy & Hqi).
  apply multiply_float_inv in Hsx as (fx & Hfx & ->).
  apply true_divide_inv in Hy as (fp & Hfp & ->).
  exists fx, fp. split; [done|]. split; [done|].
  unfold element. by rewrite Hqr.
Qed.

(** The per-capita cell followed by a slicing cell. *)
Lemma per_capita_then_snapshot c name slice s s1 s2 wide source target :
  snapshot_cell c = Some (name, slice) →
  run PerCapita s = Ok (tt, s1) → run c s1 = Ok (tt, s2) →
  frame_of s "cases" = Some wide →
  (source, target) ∈ [("Confirmed", "Confirmed_per_100"); ("Deaths", "Deaths_per_100")] →
  ∃ snap t t' v v', frame_of s2 name = Some snap ∧
    columns wide !! source = Some t ∧ per_100 wide source = Ok t' ∧
    slice t = Ok v ∧ slice t' = Ok v' ∧
    columns snap !! source = Some v ∧ columns snap !! target = Some v' ∧
    columns snap !! "Population" = columns wide !! "Population".
Proof.
  intros (Hname & -> & _)%snapshot_cell_run Hper Hsnap (l & Hl & Hwide)%frame_of_inv Hpair.
  simpl in Hper.
  apply per_capita_inv in Hper as (l' & df & c1 & c2 & Hl' & Hdf & Hc1 & Hc2 & _ & _ & ->).
  assert (l' = l) as -> by congruence. assert (df = wide) as -> by congruence.
  apply derive_snapshot_inv in Hsnap
    as (lc & wide1 & sel & snap & Hc & Hlc & Hsel & Hfill & Hs2); [|done].
  assert (frame_of s2 name = Some snap) as Hframe by (rewrite Hs2; apply frame_of_new).
  clear Hs2. cbn [heap globals] in *. assert (lc = l) as -> by congruence.
  rewrite list_lookup_insert_eq in Hlc by (by eapply lookup_lt_Some).
  injection Hlc as <-.
  apply select_inv in Hsel as (Hsi & Hsin & Hsout).
  apply fill_inv in Hfill as (Hfi & Hfin & Hfout); [|apply metric_columns_NoDup].
  cbn [columns index] in *.
  assert (columns snap !! "Population" = columns wide !! "Population") as Hpop.
  { rewrite Hfout by (by apply (bool_decide_unpack _)).
    destruct (Hsin "Population") as [_ ->]; [by apply (bool_decide_unpack _)|].
    by rewrite !lookup_insert_ne. }
  exists snap.
  apply elem_of_cons in Hpair as [[= -> ->]|Hpair];
    [|apply list_elem_of_singleton in Hpair as [= -> ->]].
  - destruct (Hfin "Confirmed") as (t & v & Ht & Hv & _ & Hsv);
      [by apply (bool_decide_unpack _)|].
    destruct (Hfin "Confirmed_per_100") as (t' & v' & Ht' & Hv' & _ & Hsv');
      [by apply (bool_decide_unpack _)|].
    rewrite !lookup_insert_ne in Ht by done.
    rewrite lookup_insert_ne, lookup_insert_eq in Ht' by done. injection Ht' as <-.
    exists t, c1, v, v'. done.
  - destruct (Hfin "Deaths") as (t & v & Ht & Hv & _ & Hsv);
      [by apply (bool_decide_unpack _)|].
    destruct (Hfin "Deaths_per_100") as (t' & v' & Ht' & Hv' & _ & Hsv');
      [by apply (bool_decide_unpack _)|].
    rewrite !lookup_insert_ne in Ht by done.
    rewrite lookup_insert_eq in Ht'. injection Ht' as <-.
    exists t, c2, v, v'. done.
Qed.

Lemma last_value_inv m rows v :
  last_value (TensorArray m rows) = Ok v →
  (1 ≤ m)%nat ∧ v = Series ((λ row, nth (m - 1) row NaN) <$> rows).
Proof.
  destruct (decide (1 ≤ m)%nat) as [H1|H1].
  - unfold last_value. rewrite (tensor_from_end_ok 1 m rows) by lia.
    rewrite bind_Ok. by intros [= <-].
  - unfold last_value. rewrite (tensor_from_end_short 1 m rows) by lia. done.
Qed.

Lemma week_delta_inv m rows v :
  week_delta (TensorArray m rows) = Ok v →
  (8 ≤ m)%nat ∧
  ∃ ds, v = Series ds ∧
        subtract_arrays ((λ row, nth (m - 1) row NaN) <$> rows)
                        ((λ row, nth (m - 8) row NaN) <$> rows) = Ok ds.
Proof.
  destruct (decide (8 ≤ m)%nat) as [H8|H8].
  - unfold week_delta.
    rewrite (tensor_from_end_ok 1 m rows), (tensor_from_end_ok 8 m rows) by lia.
    rewrite !bind_Ok.
    destruct (subtract_arrays _ _) as [ds|]; [|done]. rewrite bind_Ok.
    intros [= <-]. eauto.
  - rewrite week_delta_short by lia. done.
Qed.

Lemma subtract_arrays_lookup xs : ∀ ys ds i a b,
  subtract_arrays xs ys = Ok ds → xs !! i = Some a → ys !! i = Some b →
  ∃ d, np_subtract a b = Ok d ∧ ds !! i = Some d.
Proof.
  induction xs as [|x xs IH]; intros [|y ys] ds i a b; simpl; try done.
  destruct (np_subtract x y) as [d|] eqn:Hd; simpl; [|done].
  destruct (subtract_arrays xs ys) as [ds'|] eqn:Hds; simpl; [|done].
  intros [= <-]. destruct i as [|i]; simpl.
  - intros [= <-] [= <-]. eauto.
  - by apply IH.
Qed.

Lemma nth_lookup_in (row : list scalar) j :
  (j < length row)%nat → row !! j = Some (nth j row NaN).
Proof.
  intros Hj. destruct (lookup_lt_is_Some_2 row j Hj) as [a Ha].
  by rewrite (nth_lookup_Some _ _ NaN _ Ha).
Qed.

(** X11.  The latest snapshot is consistent row by row: on tensors of
    integer or float counts, after the per-capita cell and the
    latest-value cell, the per-capita scalar of a location is
    [100.0 * count / population] computed from the count and the
    population the same row of the snapshot shows. *)
Theorem latest_per_100_consistent s s1 s2 wide source target m rows :
  run PerCapita s = Ok (tt, s1) → run LatestCases s1 = Ok (tt, s2) →
  frame_of s "cases" = Some wide →
  (source, target) ∈ [("Confirmed", "Confirmed_per_100"); ("Deaths", "Deaths_per_100")] →
  columns wide !! source = Some (TensorArray m rows) →
  Forall (λ row, length row = m) rows → Forall (Forall numeric) rows →
  ∃ snap vs ws ps, frame_of s2 "latest_cases" = Some snap ∧
    columns snap !! source = Some (Series vs) ∧
    columns snap !! target = Some (Series ws) ∧
    columns snap !! "Population" = Some (Series ps) ∧
    ∀ r x p, vs !! r = Some x → ps !! r = Some p →
      ∃ fx fp, to_f64 x = Ok fx ∧ to_f64 p = Ok fp ∧
        ws !! r = Some (Float64 (F64.div (F64.mul F64.hundred fx) fp)).
Proof.
  intros Hper Hlatest Hwide Hpair Hsrc Hlen _.
  destruct (per_capita_then_snapshot LatestCases "latest_cases" last_value
              s s1 s2 wide source target eq_refl Hper Hlatest Hwide Hpair)
    as (snap & t & t' & v & v' & Hsnap & Ht & Ht' & Hv & Hv' & Hs & Hs' & Hpop).
  assert (t = TensorArray m rows) as -> by congruence.
  pose proof Ht' as Hinv.
  apply per_100_inv in Hinv as (m' & rows' & pops & scaled & q & Hcol & Hp & _ & _ & ->).
  assert (m' = m) as -> by congruence.
  apply last_value_inv in Hv as [Hm ->]. apply last_value_inv in Hv' as [_ ->].
  eexists snap, _, _, pops. split; [done|]. split; [done|]. split; [done|].
  split; [congruence|].
  intros r x p Hx Hpr. rewrite list_lookup_fmap in Hx.
  destruct (rows !! r) as [row|] eqn:Hrow; [|done]. simpl in Hx. injection Hx as <-.
  assert (length row = m) as Hrl by by eapply Forall_lookup_1 in Hlen.
  assert (element rows r (m - 1) = Some (nth (m - 1) row NaN)) as Hel.
  { unfold element. rewrite Hrow. simpl. apply nth_lookup_in. lia. }
  destruct (per_100_element wide source m rows pops q r (m - 1) _ p Hsrc Hp Ht' Hel Hpr)
    as (fx & fp & Hfx & Hfp & Hq).
  exists fx, fp. split; [done|]. split; [done|].
  unfold element in Hq. destruct (q !! r) as [qrow|] eqn:Hqr; [|done]. simpl in Hq.
  rewrite list_lookup_fmap, Hqr. simpl. f_equal.
  by apply nth_lookup_Some with (d := NaN) in Hq.
Qed.

Lemma latest_per_100_consistent_witness :
  ∃ snap vs ws ps,
    frame_of (store_after (example_cells ++ [LatestCases])) "latest_cases" = Some snap ∧
    columns snap !! "Confirmed" = Some (Series vs) ∧
    columns snap !! "Confirmed_per_100" = Some (Series ws) ∧
    columns snap !! "Population" = Some (Series ps) ∧
    ∀ r x p, vs !! r = Some x → ps !! r = Some p →
      ∃ fx fp, to_f64 x = Ok fx ∧ to_f64 p = Ok fp ∧
        ws !! r = Some (Float64 (F64.div (F64.mul F64.hundred fx) fp)).
Proof.
  apply (latest_per_100_consistent
           (store_after [Load example_raw; CastOutliers; Collapse])
           (store_after example_cells) _
           (wide_after [Load example_raw; CastOutliers; Collapse])
           "Confirmed" "Confirmed_per_100" 10
           [Int64 <$> [10; 12; 15; 15; 20; 22; 25; 30; 33; 40]%Z]).
  - vm_compute. reflexivity.
  - vm_compute. reflexivity.
  - vm_compute. reflexivity.
  - left.
  - vm_compute. reflexivity.
  - by repeat constructor.
  - by repeat constructor.
Defined.

(** X12.  The this-week per-capita value is the difference of two
    per-capita values, not the per-capita of the difference: on tensors
    of integer or float counts it is, for a location, the [float64]
    difference of
    [100.0 * raw[last] / population] and [100.0 * raw[last - 7] /
    population]. *)
Theorem this_week_per_100_difference s s1 s2 wide source target m rows :
  run PerCapita s = Ok (tt, s1) → run CasesThisWeek s1 = Ok (tt, s2) →
  frame_of s "cases" = Some wide →
  (source, target) ∈ [("Confirmed", "Confirmed_per_100"); ("Deaths", "Deaths_per_100")] →
  columns wide !! source = Some (TensorArray m rows) →
  Forall (λ row, length row = m) rows → Forall (Forall numeric) rows →
  ∃ snap ws ps, frame_of s2 "cases_this_week" = Some snap ∧
    columns snap !! target = Some (Series ws) ∧
    columns snap !! "Population" = Some (Series ps) ∧
    ∀ r row p, rows !! r = Some row → ps !! r = Some p →
      ∃ a b fa fb fp,
        row !! (m - 1)%nat = Some a ∧ row !! (m - 8)%nat = Some b ∧
        to_f64 a = Ok fa ∧ to_f64 b = Ok fb ∧ to_f64 p = Ok fp ∧
        ws !! r = Some (Float64 (F64.sub
                          (F64.div (F64.mul F64.hundred fa) fp)
                          (F64.div (F64.mul F64.hundred fb) fp))).
Proof.
  intros Hper Hweek Hwide Hpair Hsrc Hlen _.
  destruct (per_capita_then_snapshot CasesThisWeek "cases_this_week" week_delta
              s s1 s2 wide source target eq_refl Hper Hweek Hwide Hpair)
    as (snap & t & t' & v & v' & Hsnap & Ht & Ht' & Hv & Hv' & Hs & Hs' & Hpop).
  assert (t = TensorArray m rows) as -> by congruence.
  pose proof Ht' as Hinv.
  apply per_100_inv in Hinv as (m' & rows' & pops & scaled & q & Hcol & Hp & _ & _ & ->).
  assert (m' = m) as -> by congruence.
  apply week_delta_inv in Hv as [Hm _]. apply week_delta_inv in Hv' as (_ & ws & -> & Hws).
  exists snap, ws, pops. split; [done|]. split; [done|]. split; [congruence|].
  intros r row p Hrow Hpr.
  assert (length row = m) as Hrl by by eapply Forall_lookup_1 in Hlen.
  assert (∀ j, (j < m)%nat →
            ∃ x fx fp qrow, row !! j = Some x ∧ to_f64 x = Ok fx ∧ to_f64 p = Ok fp ∧
              q !! r = Some qrow ∧
              nth j qrow NaN = Float64 (F64.div (F64.mul F64.hundred fx) fp)) as Hat.
  { intros j Hj.
    assert (element rows r j = Some (nth j row NaN)) as Hel.
    { unfold element. rewrite Hrow. simpl. apply nth_lookup_in. lia. }
    destruct (per_100_element wide source m rows pops q r j _ p Hsrc Hp Ht' Hel Hpr)
      as (fx & fp & Hfx & Hfp & Hq).
    unfold element in Hq. destruct (q !! r) as [qrow|] eqn:Hqr; [|done]. simpl in Hq.
    exists (nth j row NaN), fx, fp, qrow. split; [apply nth_lookup_in; lia|].
    repeat (split; [done|]). by apply nth_lookup_Some with (d := NaN) in Hq. }
  destruct (Hat (m - 1)%nat) as (a & fa & fp & qrow & Ha & Hfa & Hfp & Hqr & Hqa); [lia|].
  destruct (Hat (m - 8)%nat) as (b & fb & fp' & qrow' & Hb & Hfb & Hfp' & Hqr' & Hqb); [lia|].
  assert (fp' = fp) as -> by congruence. assert (qrow' = qrow) as -> by congruence.
  destruct (subtract_arrays_lookup _ _ _ r (nth (m - 1) qrow NaN)
              (nth (m - 8) qrow NaN) Hws) as (d & Hd & Hwr).
  { by rewrite list_lookup_fmap, Hqr. }
  { by rewrite list_lookup_fmap, Hqr. }
  rewrite Hqa, Hqb in Hd. simpl in Hd. injection Hd as <-.
  by exists a, b, fa, fb, fp.
Qed.

Lemma this_week_per_100_difference_witness :
  ∃ snap ws ps,
    frame_of (store_after (example_cells ++ [CasesThisWeek])) "cases_this_week"
      = Some snap ∧
    columns snap !! "Confirmed_per_100" = Some (Series ws) ∧
    columns snap !! "Population" = Some (Series ps) ∧
    ∀ r row p,
      [Int64 <$> [10; 12; 15; 15; 20; 22; 25; 30; 33; 40]%Z] !! r = Some row →
      ps !! r = Some p →
      ∃ a b fa fb fp,
        row !! (10 - 1)%nat = Some a ∧ row !! (10 - 8)%nat = Some b ∧
        to_f64 a = Ok fa ∧ to_f64 b = Ok fb ∧ to_f64 p = Ok fp ∧
        ws !! r = Some (Float64 (F64.sub
                          (F64.div (F64.mul F64.hundred fa) fp)
                          (F64.div (F64.mul F64.hundred fb) fp))).
Proof.
  apply (this_week_per_100_difference
           (store_after [Load example_raw; CastOutliers; Collapse])
           (store_after example_cells) _
           (wide_after [Load example_raw; CastOutliers; Collapse])
           "Confirmed" "Confirmed_per_100" 10
           [Int64 <$> [10; 12; 15; 15; 20; 22; 25; 30; 33; 40]%Z]).
  - vm_compute. reflexivity.
  - vm_compute. reflexivity.
  - vm_compute. reflexivity.
  - left.
  - vm_compute. reflexivity.
  - by repeat constructor.
  - by repeat constructor.
Defined.

(** * Integer counts *)

Lemma nth_fmap_Int64 (zs : list Z) j :
  (j < length zs)%nat → nth j (Int64 <$> zs) NaN = Int64 (nth j zs 0%Z).
Proof.
  intros Hj. destruct (lookup_lt_is_Some_2 zs j Hj) as [z Hz].
  rewrite (nth_lookup_Some _ _ 0%Z _ Hz).
  apply nth_lookup_Some. by rewrite list_lookup_fmap, Hz.
Qed.

(** X13.  On [int64] tensors of non-negative counts the trailing-week
    delta is the exact integer difference: the subtraction never wraps
    around. *)
Theorem week_delta_int64_exact m (zrows : list (list Z)) :
  (8 ≤ m)%nat →
  Forall (λ zs, length zs = m ∧ Forall (λ z, 0 ≤ z < 2 ^ 63)%Z zs) zrows →
  week_delta (TensorArray m ((λ zs : list Z, Int64 <$> zs) <$> zrows))
  = Ok (Series ((λ zs : list Z, Int64 (nth (m - 1) zs 0 - nth (m - 8) zs 0)%Z)
                  <$> zrows)).
Proof.
  intros Hm Hrows. unfold week_delta.
  rewrite (tensor_from_end_ok 1), (tensor_from_end_ok 8) by lia. rewrite !bind_Ok.
  assert (subtract_arrays
            ((λ row, nth (m - 1) row NaN) <$> ((λ zs : list Z, Int64 <$> zs) <$> zrows))
            ((λ row, nth (m - 8) row NaN) <$> ((λ zs : list Z, Int64 <$> zs) <$> zrows))
          = Ok ((λ zs : list Z, Int64 (nth (m - 1) zs 0 - nth (m - 8) zs 0)%Z)
                  <$> zrows)) as ->;
    [|done].
  induction Hrows as [|zs zrows [Hlen Hrange] _ IH]; [done|].
  cbn [fmap list_fmap subtract_arrays].
  rewrite !nth_fmap_Int64 by lia. rewrite np_subtract_int64, bind_Ok.
  change (list_fmap ?A ?B ?f ?l) with (f <$> l). rewrite IH, bind_Ok.
  do 3 f_equal. apply wrap_in_range; [done|].
  assert (0 ≤ nth (m - 1) zs 0 < 2 ^ 63)%Z as H1.
  { apply (proj1 (Forall_forall _ zs) Hrange). apply list_elem_of_In, nth_In. lia. }
  assert (0 ≤ nth (m - 8) zs 0 < 2 ^ 63)%Z as H8.
  { apply (proj1 (Forall_forall _ zs) Hrange). apply list_elem_of_In, nth_In. lia. }
  simpl. lia.
Qed.

Lemma week_delta_int64_exact_witness :
  week_delta (TensorArray 10
                ((λ zs : list Z, Int64 <$> zs)
                   <$> [[10; 12; 15; 15; 20; 22; 25; 30; 33; 40]%Z]))
  = Ok (Series ((λ zs : list Z, Int64 (nth (10 - 1) zs 0 - nth (10 - 8) zs 0)%Z)
                  <$> [[10; 12; 15; 15; 20; 22; 25; 30; 33; 40]%Z])).
Proof.
  apply (week_delta_int64_exact 10 [[10; 12; 15; 15; 20; 22; 25; 30; 33; 40]%Z]).
  - lia.
  - repeat constructor; lia.
Defined.

(** * Locations *)

Lemma string_length_app s1 s2 :
  String.length (s1 +:+ s2) = (String.length s1 + String.length s2)%nat.
Proof. induction s1 as [|c s1 IH]; simpl; [done|]. by rewrite IH. Qed.

Lemma zeros_S k :
  String.concat "" (replicate (S k) "0") = String "0" (String.concat "" (replicate k "0")).
Proof. by destruct k. Qed.

Lemma zeros_length k : String.length (String.concat "" (replicate k "0")) = k.
Proof. induction k as [|k IH]; [done|]. rewrite zeros_S. simpl. by rewrite IH. Qed.

Lemma read_zeros k s :
  read_decimal 0 (String.concat "" (replicate k "0") +:+ s) = read_decimal 0 s.
Proof. induction k as [|k IH]; [done|]. rewrite zeros_S. simpl. exact IH. Qed.

Lemma digit_value_char d : (d < 10)%N → digit_value (pretty_N_char d) = d.
Proof.
  intros Hd.
  assert (d = 0 ∨ d = 1 ∨ d = 2 ∨ d = 3 ∨ d = 4 ∨ d = 5
          ∨ d = 6 ∨ d = 7 ∨ d = 8 ∨ d = 9)%N as Hcases by lia.
  repeat (destruct Hcases as [->|Hcases]; [reflexivity|]). by subst.
Qed.

Lemma read_pretty_go x : ∀ s, read_decimal 0 (pretty_N_go x s) = read_decimal x s.
Proof.
  induction (N.lt_wf_0 x) as [x _ IH]; intros s.
  destruct (decide (x = 0)%N) as [->|Hx]; [by rewrite pretty_N_go_0|].
  rewrite pretty_N_go_step by lia.
  rewrite IH by (apply N.div_lt; lia). simpl.
  rewrite digit_value_char by (apply N.mod_lt; lia).
  f_equal. rewrite (N.div_mod x 10) at 3 by lia. lia.
Qed.

Lemma read_pretty (n : N) : read_decimal 0 (pretty n) = n.
Proof.
  unfold pretty, pretty_N. case_decide as Hn; [by subst|].
  by rewrite read_pretty_go.
Qed.

Lemma format_05d_nonneg f :
  (0 ≤ f)%Z →
  format_05d f
  = String.concat "" (replicate (5 - String.length (pretty (Z.abs_N f))) "0")
    +:+ pretty (Z.abs_N f).
Proof. intros Hf. unfold format_05d. by rewrite decide_False by lia. Qed.

Lemma format_05d_read_back f :
  (0 ≤ f)%Z → Z.of_N (read_decimal 0 (format_05d f)) = f.
Proof.
  intros Hf. rewrite format_05d_nonneg, read_zeros, read_pretty by done. lia.
Qed.

(** X14.  Different FIPS codes never share a location: on non-negative
    codes the zero-padded five-digit formatting is one-to-one. *)
Theorem format_05d_inj f g :
  (0 ≤ f)%Z → (0 ≤ g)%Z → f ≠ g → format_05d f ≠ format_05d g.
Proof.
  intros Hf Hg Hne Heq. apply Hne.
  rewrite <- (format_05d_read_back f Hf), <- (format_05d_read_back g Hg).
  by rewrite Heq.
Qed.

Lemma format_05d_inj_witness : format_05d 1001 ≠ format_05d 10010.
Proof. apply (format_05d_inj 1001 10010); lia. Defined.

Lemma pretty_go_length k : ∀ x s,
  (x < 10 ^ N.of_nat k)%N →
  (String.length (pretty_N_go x s) ≤ String.length s + k)%nat.
Proof.
  induction k as [|k IH]; intros x s Hx.
  - assert (x = 0)%N as -> by (simpl in Hx; lia). rewrite pretty_N_go_0. lia.
  - destruct (decide (x = 0)%N) as [->|Hx0]; [rewrite pretty_N_go_0; lia|].
    rewrite pretty_N_go_step by lia.
    etrans; [apply IH|simpl; lia].
    apply N.Div0.div_lt_upper_bound.
    by rewrite Nat2N.inj_succ, N.pow_succ_r' in Hx.
Qed.

(** X15.  A FIPS code between 0 and 99999 is drawn under a location of
    exactly five characters, the form of the map's county identifiers. *)
Theorem format_05d_length f :
  (0 ≤ f < 100000)%Z → String.length (format_05d f) = 5%nat.
Proof.
  intros [Hf Hlt]. rewrite format_05d_nonneg, string_length_app, zeros_length by done.
  assert (String.length (pretty (Z.abs_N f)) ≤ 5)%nat; [|lia].
  unfold pretty, pretty_N. case_decide; [simpl; lia|].
  apply (pretty_go_length 5 (Z.abs_N f) ""). simpl. lia.
Qed.

Lemma format_05d_length_witness : String.length (format_05d 1001) = 5%nat.
Proof. apply (format_05d_length 1001). lia. Defined.

(** * Drawing, further *)

Lemma compress_length {A} (f : scalar → bool) (xs : list scalar) : ∀ l : list A,
  length l = length xs →
  length (compress (f <$> xs) l) = length (filter (λ x, f x = true) xs).
Proof.
  induction xs as [|x xs IH]; intros [|y l] Hlen; simplify_eq/=; [done|].
  rewrite filter_cons. destruct (f x) eqn:Hx.
  - rewrite decide_True by done. simpl. f_equal. by apply IH.
  - rewrite decide_False by done. by apply IH.
Qed.


Lemma filter_notna_b (xs : list scalar) :
  filter (λ x, notna_b x = true) xs = filter notna xs.
Proof.
  apply list_filter_iff. intros x. unfold notna, notna_b. by destruct (isna x).
Qed.


(** What a returning [draw_map] went through. *)
Lemma draw_map_inv quantile counties df col_name label_str fig :
  draw_map quantile counties df col_name label_str = Ok fig →
  ∃ xs, columns df !! col_name = Some (Series xs) ∧
    is_Some (columns df !! "County") ∧
    data_frame fig = boolean_index df (notna_b <$> xs) ∧
    locations fig = format_05d <$> index (data_frame fig) ∧
    counties = Ok (geojson fig) ∧
    Forall real_valued (filter notna xs).
Proof.
  unfold draw_map, getitem.
  destruct (columns df !! col_name) as [[xs|]|] eqn:Hcol; try done.
  simpl lookup_or. rewrite bind_Ok. unfold notna_mask. rewrite bind_Ok. cbv zeta.
  destruct counties as [geo|]; [|done]. rewrite bind_Ok.
  change (columns (boolean_index df (notna_b <$> xs)))
    with (compress_column (notna_b <$> xs) <$> columns df).
  rewrite !lookup_fmap, Hcol.
  cbn [fmap option_fmap option_map compress_column lookup_or]. rewrite bind_Ok.
  rewrite compress_self, filter_notna_b. unfold series_quantile.
  destruct (traverse quantile_operand (filter notna xs)) as [ys|] eqn:Hys; [|done].
  rewrite !bind_Ok.
  destruct (columns df !! "County") as [county|]; [|done].
  intros [= <-]. exists xs. repeat split; try done.
  by eapply quantile_operands_inv.
Qed.

(** The steps of [draw_map] up to the county names. *)
Lemma draw_map_steps quantile geo df col_name label_str xs :
  columns df !! col_name = Some (Series xs) → Forall real_valued xs →
  draw_map quantile (Ok geo) df col_name label_str
  = (county ← getitem (boolean_index df (notna_b <$> xs)) "County";
     Ok (mkChoropleth (boolean_index df (notna_b <$> xs)) geo
           (format_05d <$> index (boolean_index df (notna_b <$> xs))) col_name
           (Int64 0, quantile (filter notna xs) q95) county
           (col_name, label_str) label_str)).
Proof.
  intros Hcol Hreal.
  assert (getitem df col_name = Ok (Series xs)) as Hget.
  { unfold getitem. by rewrite Hcol. }
  assert (getitem (boolean_index df (notna_b <$> xs)) col_name
          = Ok (Series (filter notna xs))) as Hvalid.
  { unfold getitem, boolean_index. cbn [columns]. rewrite lookup_fmap, Hcol.
    cbn [fmap option_fmap option_map compress_column lookup_or].
    by rewrite compress_self, filter_notna_b. }
  unfold draw_map. rewrite Hget, bind_Ok. unfold notna_mask. rewrite !bind_Ok.
  cbv zeta. rewrite Hvalid, bind_Ok.
  rewrite series_quantile_ok by by apply filter_real_valued.
  by rewrite bind_Ok.
Qed.

(** X16.  [draw_map] needs the [County] column for the hover text: on a
    table without it whose selected column is a series of integers or
    floats, called where the county outlines are loaded, the call
    raises [KeyError] for ["County"]: the selected column is there and
    its quantile is taken before the county names are read. *)
Theorem draw_map_needs_county quantile geo df col_name label_str xs :
  columns df !! col_name = Some (Series xs) → Forall real_valued xs →
  columns df !! "County" = None →
  draw_map quantile (Ok geo) df col_name label_str = Raise (KeyError "County").
Proof.
  intros Hcol Hreal Hcounty. rewrite (draw_map_steps _ _ _ _ _ xs) by done.
  unfold getitem, boolean_index. cbn [columns].
  by rewrite lookup_fmap, Hcounty.
Qed.

Lemma draw_map_needs_county_witness :
  draw_map (λ xs _, default NaN (last xs)) (Ok example_outlines)
    (mkFrame (index snapshot_with_gap) (delete "County" (columns snapshot_with_gap)))
    "Confirmed" "Confirmed Cases "
  = Raise (KeyError "County").
Proof.
  apply (draw_map_needs_county _ _ _ "Confirmed" _
           [Float64 (F64.of_Z 40); NaN; Float64 (F64.of_Z 7)]).
  - vm_compute. reflexivity.
  - repeat constructor.
  - vm_compute. reflexivity.
Defined.

(** X17.  The table [draw_map] hands to the renderer is well formed and
    counted: on a table all of whose columns have one entry per
    location, every column of the drawn table has one entry per drawn
    location, there is one location string per drawn row, and the
    number of drawn rows is the number of non-gap values of the
    selected column, at most the number of rows of the table. *)
Theorem draw_map_table_ok quantile counties df col_name label_str fig xs :
  frame_ok df → columns df !! col_name = Some (Series xs) →
  draw_map quantile counties df col_name label_str = Ok fig →
  frame_ok (data_frame fig) ∧
  length (index (data_frame fig)) = length (filter notna xs) ∧
  length (locations fig) = length (filter notna xs) ∧
  (length (filter notna xs) ≤ length (index df))%nat.
Proof.
  intros Hok Hcol (xs' & Hcol' & _ & Hdata & Hloc & _)%draw_map_inv.
  assert (xs' = xs) as -> by congruence.
  pose proof (Hok _ _ Hcol) as Hlen. simpl in Hlen.
  assert (length (index (data_frame fig)) = length (filter notna xs)) as Hrows.
  { rewrite Hdata. unfold boolean_index. cbn [index].
    by rewrite compress_length, filter_notna_b. }
  split; [|split; [done|split]].
  - intros col c Hc. rewrite Hrows. rewrite Hdata in Hc.
    unfold boolean_index in Hc. cbn [columns] in Hc.
    rewrite lookup_fmap in Hc. destruct (columns df !! col) as [c0|] eqn:Hc0; [|done].
    simpl in Hc. injection Hc as <-. pose proof (Hok _ _ Hc0) as Hl0.
    destruct c0 as [ys|m rows]; simpl in *;
      rewrite compress_length, filter_notna_b; congruence.
  - by rewrite Hloc, length_fmap.
  - rewrite <- Hlen. apply length_filter.
Qed.

Lemma snapshot_with_gap_ok : frame_ok snapshot_with_gap.
Proof.
  intros col c. unfold snapshot_with_gap. cbn [columns index list_to_map foldr].
  intros [[<- <-]|[_ [[<- <-]|[_ Hc]]%lookup_insert_Some]]%lookup_insert_Some; try done.
Qed.

Lemma draw_map_table_ok_witness :
  ∃ fig, draw_map (λ xs _, default NaN (last xs)) (Ok example_outlines)
           snapshot_with_gap "Confirmed" "Confirmed Cases " = Ok fig ∧
    frame_ok (data_frame fig) ∧ length (index (data_frame fig)) = 2%nat.
Proof.
  eexists. split; [vm_compute; reflexivity|].
  edestruct (draw_map_table_ok (λ xs _, default NaN (last xs)) (Ok example_outlines)
               snapshot_with_gap "Confirmed" "Confirmed Cases ") as (Hok & Hrows & _).
  - exact snapshot_with_gap_ok.
  - vm_compute. reflexivity.
  - vm_compute. reflexivity.
  - split; [exact Hok|exact Hrows].
Defined.




(** [draw_map] returns whenever the outlines are loaded, the selected
    column is a series of integers or floats and the county names are
    there. *)
Lemma draw_map_returns quantile geo df col_name label_str xs county :
  columns df !! col_name = Some (Series xs) → Forall real_valued xs →
  columns df !! "County" = Some county →
  ∃ fig, draw_map quantile (Ok geo) df col_name label_str = Ok fig ∧
         geojson fig = geo.
Proof.
  intros Hcol Hreal Hcounty. rewrite (draw_map_steps _ _ _ _ _ xs) by done.
  unfold getitem, boolean_index. cbn [columns].
  rewrite lookup_fmap, Hcounty. simpl. eauto.
Qed.

Lemma numeric_real_valued x : numeric x → real_valued x.
Proof. by destruct x. Qed.

Lemma subtract_arrays_numeric xs : ∀ ys ds,
  subtract_arrays xs ys = Ok ds → Forall numeric xs → Forall numeric ys →
  Forall numeric ds.
Proof.
  induction xs as [|x xs IH]; intros [|y ys] ds; simpl; try done.
  - by intros [= <-].
  - destruct (np_subtract x y) as [d|] eqn:Hd; simpl; [|done].
    destruct (subtract_arrays xs ys) as [ds'|] eqn:Hds; simpl; [|done].
    intros [= <-] [Hx Hxs]%Forall_cons [Hy Hys]%Forall_cons.
    constructor; [|by eapply IH].
    destruct (np_subtract_numeric x y Hx Hy) as (v & Hv & Hnv). congruence.
Qed.

Lemma nth_default_numeric (row : list scalar) j :
  Forall numeric row → numeric (nth j row NaN).
Proof.
  intros Hrow. destruct (nth_in_or_default j row NaN) as [Hin| ->]; [|done].
  rewrite Forall_forall in Hrow. apply Hrow. by apply list_elem_of_In.
Qed.

(** The slices of integer and float sequences are integers and floats;
    a column that is no tensor cannot be sliced. *)
Lemma snapshot_cell_numeric c name slice x v :
  snapshot_cell c = Some (name, slice) → slice x = Ok v →
  ∃ m rows, x = TensorArray m rows ∧
    (Forall (Forall numeric) rows → ∃ xs, v = Series xs ∧ Forall numeric xs).
Proof.
  intros Hcell Hv. destruct x as [ys|m rows].
  { destruct c; simplify_eq/=. }
  exists m, rows. split; [done|]. intros Hnum.
  assert (∀ j, Forall numeric ((λ row, nth j row NaN) <$> rows)) as Hnth.
  { intros j. apply Forall_fmap. eapply Forall_impl; [exact Hnum|].
    intros row Hrow. by apply nth_default_numeric. }
  destruct c; simplify_eq/=.
  - apply last_value_inv in Hv as [_ ->]. eauto.
  - apply week_delta_inv in Hv as (_ & ds & -> & Hds).
    exists ds. split; [done|]. by eapply subtract_arrays_numeric.
Qed.

Lemma cell_download_run ids s :
  cell_download ids s
  = Ok (tt, mkStore (heap s ++ [GeoJson ids])
              (<["counties" := length (heap s)]> (globals s))).
Proof. reflexivity. Qed.

Lemma counties_after_download ids s g :
  counties_global (mkStore (heap s ++ [GeoJson ids])
                     (<["counties" := length (heap s)]> g)) = Ok ids.
Proof.
  unfold counties_global. cbn [globals heap]. rewrite lookup_insert_eq.
  rewrite lookup_app_r by lia. by rewrite Nat.sub_diag.
Qed.

(** X19.  After a slicing cell has returned on a wide table of integer
    or float counts and the county outlines are downloaded, drawing any
    of the four sliced columns of the cell's table returns as well (the
    selected column, a column of integers or floats, and the county
    names are there), passes the downloaded outlines on, hands at most
    one row per location to the renderer, and changes nothing in the
    store. *)
Theorem draw_after_snapshot quantile c name slice s s1 s2 wide ids col_name label_str :
  snapshot_cell c = Some (name, slice) → run c s = Ok (tt, s1) →
  frame_of s "cases" = Some wide → counts_numeric wide →
  cell_download ids s1 = Ok (tt, s2) →
  col_name ∈ metric_columns →
  ∃ fig snap, cell_draw quantile name col_name label_str s2 = Ok (fig, s2) ∧
    frame_of s1 name = Some snap ∧ frame_of s2 name = Some snap ∧
    geojson fig = ids ∧
    (length (index (data_frame fig)) ≤ length (index snap))%nat.
Proof.
  intros Hcell Hrun Hwide Hnum Hdown Hcol.
  destruct (snapshot_table c name slice s s1 wide Hcell Hrun Hwide)
    as (snap & Hsnap & Hidx & Hstatic & Hmetric & _ & _).
  destruct (Hmetric col_name Hcol) as (xs & Hxs & Hlen).
  destruct (Hstatic "County") as [[county Hcounty] Hsc];
    [by apply (bool_decide_unpack _)|].
  assert (Forall real_valued xs) as Hreal.
  { destruct (snapshot_values c name slice s s1 wide snap col_name)
      as (x & v & Hx & Hv & Hs); [done..|].
    destruct (snapshot_cell_numeric c name slice x v Hcell Hv)
      as (m & rows & -> & Hrows).
    destruct Hrows as (xs' & -> & Hxs'); [by eapply Hnum|].
    assert (xs' = xs) as -> by congruence.
    eapply Forall_impl; [exact Hxs'|]. apply numeric_real_valued. }
  destruct (draw_map_returns quantile ids snap col_name label_str xs county)
    as (fig & Hfig & Hgeo); [done|done|by rewrite Hsc|].
  assert (name ≠ "counties") as Hname by (destruct c; simplify_eq/=; done).
  rewrite cell_download_run in Hdown. injection Hdown as <-.
  apply frame_of_inv in Hsnap as (l & Hl & Hheap).
  assert (globals (mkStore (heap s1 ++ [GeoJson ids])
                     (<["counties" := length (heap s1)]> (globals s1))) !! name
          = Some l) as Hl2.
  { cbn [globals]. by rewrite lookup_insert_ne. }
  assert (heap (mkStore (heap s1 ++ [GeoJson ids])
                  (<["counties" := length (heap s1)]> (globals s1))) !! l
          = Some (FrameObj snap)) as Hheap2.
  { cbn [heap]. by apply lookup_app_l_Some. }
  exists fig, snap. split; [|split; [|split; [|split; [done|]]]].
  - unfold cell_draw.
    rewrite (run_var _ _ _ _ Hl2), (run_frame_at _ _ _ _ Hheap2).
    rewrite run_bind. unfold read_counties at 1.
    rewrite counties_after_download, Hfig. done.
  - unfold frame_of. by rewrite Hl; simpl; rewrite Hheap.
  - unfold frame_of. cbn [globals heap]. rewrite lookup_insert_ne by done.
    rewrite Hl. simpl. by rewrite (lookup_app_l_Some _ _ _ _ Hheap).
  - apply draw_map_inv in Hfig as (xs' & Hxs' & _ & -> & _).
    assert (xs' = xs) as -> by congruence.
    unfold boolean_index. cbn [index].
    rewrite compress_length by congruence. rewrite Hidx, <- Hlen. apply length_filter.
Qed.

Lemma draw_after_snapshot_witness :
  ∃ fig snap,
    cell_draw (λ xs _, default NaN (last xs)) "cases_this_week" "Confirmed_per_100"
      "Confirmed per 100 this Week" (drawing_store (example_cells ++ [CasesThisWeek]))
    = Ok (fig, drawing_store (example_cells ++ [CasesThisWeek])) ∧
    frame_of (store_after (example_cells ++ [CasesThisWeek])) "cases_this_week"
      = Some snap ∧
    frame_of (drawing_store (example_cells ++ [CasesThisWeek])) "cases_this_week"
      = Some snap ∧
    geojson fig = example_outlines ∧
    (length (index (data_frame fig)) ≤ length (index snap))%nat.
Proof.
  apply (draw_after_snapshot _ CasesThisWeek "cases_this_week" week_delta
           (store_after example_cells) _ _ (wide_after example_cells)).
  - reflexivity.
  - vm_compute. reflexivity.
  - vm_compute. reflexivity.
  - exact example_counts_numeric.
  - vm_compute. reflexivity.
  - by apply (bool_decide_unpack _).
Defined.

(** * Input files *)

Lemma string_app_assoc s1 s2 s3 : (s1 +:+ s2) +:+ s3 = s1 +:+ (s2 +:+ s3).
Proof.
  induction s1 as [|c s1 IH]; [done|].
  change (String c ((s1 +:+ s2) +:+ s3) = String c (s1 +:+ (s2 +:+ s3))).
  by rewrite IH.
Qed.

Lemma ends_with_sep_app_sep s : ends_with_sep (s +:+ "/") = true.
Proof.
  induction s as [|c s IH]; [done|].
  change (ends_with_sep (String c (s +:+ "/")) = true).
  destruct (s +:+ "/") eqn:Hs; [by destruct s|]. exact IH.
Qed.

(** X20.  Both input files are looked up side by side under one
    directory prefix: the value of [COVID_OUTPUTS_DIR] where the
    variable is set (also when it is set to the empty string, which
    means the working directory, not the default), ["outputs"]
    elsewhere, followed by one separator unless the value is empty or
    ends with a separator already. *)
Theorem input_files_side_by_side (environ : gmap string string) :
  ∃ prefix,
    csv_file environ = prefix +:+ "us_counties_clean.csv" ∧
    meta_file environ = prefix +:+ "us_counties_clean_meta.json" ∧
    (environ !! "COVID_OUTPUTS_DIR" = None → prefix = "outputs/") ∧
    (∀ v, environ !! "COVID_OUTPUTS_DIR" = Some v →
       (v = "" → prefix = "") ∧
       (ends_with_sep v = true → prefix = v) ∧
       (v ≠ "" → ends_with_sep v = false → prefix = v +:+ "/")) ∧
    (prefix = "" ∨ ends_with_sep prefix = true).
Proof.
  unfold csv_file, meta_file, outputs_dir, getenv, path_join.
  destruct (environ !! "COVID_OUTPUTS_DIR") as [v|] eqn:Hv.
  - cbn [starts_with_sep]. rewrite !bool_decide_eq_false_2 by done.
    destruct (decide (v = "")) as [->|Hne].
    + exists "". split; [done|]. split; [done|]. split; [done|]. split; [|by left].
      intros v [= <-]. repeat split; intros; (done || congruence).
    + rewrite (bool_decide_eq_false_2 (v = "")) by done. cbn [orb].
      destruct (ends_with_sep v) eqn:Hend.
      * exists v. split; [done|]. split; [done|]. split; [done|]. split; [|by right].
        intros v' [= <-]. repeat split; intros; (done || congruence).
      * exists (v +:+ "/"). rewrite !string_app_assoc.
        split; [done|]. split; [done|]. split; [done|]. split.
        { intros v' [= <-]. repeat split; intros; (done || congruence). }
        right. apply ends_with_sep_app_sep.
  - exists "outputs/". split; [done|]. split; [done|]. split; [done|].
    split; [done|by right].
Qed.

(** * When the latest-value cell returns *)

Lemma select_total df cols :
  (∀ col, col ∈ cols → is_Some (columns df !! col)) →
  ∃ sel, select df cols = Ok sel ∧ index sel = index df.
Proof.
  intros Hcols. unfold select.
  destruct (traverse_total (λ c, x ← getitem df c; Ok (c, x)) cols) as [kvs ->].
  { intros c Hc. destruct (Hcols c Hc) as [x Hx]. unfold getitem. rewrite Hx. simpl. eauto. }
  rewrite bind_Ok. eauto.
Qed.

Lemma last_value_Ok_inv c v :
  last_value c = Ok v →
  ∃ m rows, c = TensorArray m rows ∧ (1 ≤ m)%nat ∧
            v = Series ((λ row, nth (m - 1) row NaN) <$> rows).
Proof.
  destruct c as [xs|m rows]; [done|].
  intros [Hm ->]%last_value_inv. by exists m, rows.
Qed.

(** X21.  The latest-value cell returns exactly when [cases] is a
    table that has the three carried-over columns and whose four sliced
    columns are tensors with a non-empty second axis and one row per
    location. *)
Theorem latest_cases_returns_iff s :
  (∃ s', run LatestCases s = Ok (tt, s')) ↔
  ∃ wide, frame_of s "cases" = Some wide ∧
    (∀ col, col ∈ static_columns → is_Some (columns wide !! col)) ∧
    (∀ col, col ∈ metric_columns →
       ∃ m rows, columns wide !! col = Some (TensorArray m rows) ∧
                 (1 ≤ m)%nat ∧ length rows = length (index wide)).
Proof.
  simpl run. unfold cell_latest_cases. split.
  - intros [s' (lc & wide & sel & snap & Hc & Hlc & Hsel & Hfill & _)%derive_snapshot_inv];
      [|done].
    exists wide. split; [unfold frame_of; by rewrite Hc; simpl; rewrite Hlc|].
    apply select_inv in Hsel as (Hsi & Hsin & _).
    apply fill_inv in Hfill as (_ & Hfin & _); [|apply metric_columns_NoDup].
    split; [intros col Hcol; by apply Hsin|].
    intros col Hcol. destruct (Hfin col Hcol) as (c & v & Hcv & Hv & Hlen & _).
    apply last_value_Ok_inv in Hv as (m & rows & -> & Hm & ->).
    exists m, rows. split; [done|]. split; [done|].
    simpl in Hlen. rewrite length_fmap in Hlen. congruence.
  - intros (wide & (lc & Hc & Hlc)%frame_of_inv & Hstatic & Hmetric).
    rewrite (derive_snapshot_run "latest_cases" last_value s lc wide) by done.
    destruct (select_total wide static_columns Hstatic) as (sel & -> & Hsel).
    rewrite bind_Ok.
    destruct (fill_spec last_value wide metric_columns metric_columns_NoDup sel)
      as (snap & -> & _).
    { intros col Hcol. destruct (Hmetric col Hcol) as (m & rows & Hrows & Hm & Hlen).
      destruct (last_value_spec m rows Hm) as (vs & Hvs & Hl & _).
      exists (TensorArray m rows), (Series vs). unfold getitem. rewrite Hrows.
      split; [done|]. split; [done|]. simpl. congruence. }
    rewrite bind_Ok. eauto.
Qed.
